(** * The YQL value layer (yb/common/yql_value.h, yb/master/yql_virtual_table.h)

    A shallow embedding of the YQLValue interface: the tagged-union value
    record [YQLValuePB], the typed getters and setters, the collection
    append protocol, assignment, the null-aware relational operators, the
    numeric decode helper, the CQL wire codec and the virtual-table
    [SetColumnValue] helper. *)

From Stdlib Require Import ZArith Lia.
From Stdlib.Strings Require Import Byte.
From stdpp Require Import base list strings.

(** ** Results of calls

    Code in this layer fails in two ways: a [Status] is handed back to the
    caller (CHECKED_STATUS), or a CHECK / CHECK_OK trips and the process
    aborts. *)

Set Warnings "-register-all".

Inductive Status : Set :=
| OK
| Corruption
| InvalidArgument
| NotFound.

Definition Status_ok (s : Status) : bool :=
  match s with OK => true | _ => false end.

(** A call returns normally with its result, returns a non-OK [Status]
    (the recoverable failures), or aborts on a failed CHECK. *)
Inductive Outcome (A : Type) : Type :=
| Returns (a : A)
| Fails (s : Status)
| Aborts.
Arguments Returns {A} a.
Arguments Fails {A} s.
Arguments Aborts {A}.

Definition outcome_bind {A B} (c : Outcome A) (k : A -> Outcome B) : Outcome B :=
  match c with
  | Returns a => k a
  | Fails s => Fails s
  | Aborts => Aborts
  end.

Notation "x <- c ;; k" := (outcome_bind c (fun x => k))
  (at level 100, c at next level, right associativity).

(** [CHECK(cond); rest] *)
Definition CHECK {A} (cond : bool) (rest : Outcome A) : Outcome A :=
  if cond then rest else Aborts.

(** [CHECK_OK(status); rest] *)
Definition CHECK_OK {A} (s : Status) (rest : Outcome A) : Outcome A :=
  CHECK (Status_ok s) rest.

(** ** Bytes and fixed-width integers *)

Definition Z_of_byte (b : byte) : Z := Z.of_N (Byte.to_N b).

Definition byte_of_Z (z : Z) : byte :=
  match Byte.of_N (Z.to_N (z mod 256)) with
  | Some b => b
  | None => x00
  end.

(** [static_cast] to a signed integer type of [w] bits. *)
Definition static_cast_signed (w : Z) (x : Z) : Z :=
  (x + 2 ^ (w - 1)) mod 2 ^ w - 2 ^ (w - 1).

(** ** External value types *)

(** Modelled from the spec: yb/util/timestamp.h is not in src; a timestamp
    is a signed 64-bit count of milliseconds since the epoch. *)
Definition Timestamp : Set := Z.

(** Modelled from the spec: the constructor [Timestamp(int64)] of the
    missing yb/util/timestamp.h keeps the count. *)
Definition Timestamp_of_int64 (x : Z) : Timestamp := x.

(** Modelled from the spec: [Timestamp::ToInt64] of the missing
    yb/util/timestamp.h gives the count back. *)
Definition ToInt64 (t : Timestamp) : Z := t.

(** Big-endian (network order) image of the low [n] bytes of [x]. *)
Fixpoint be_encode (n : nat) (x : Z) : list byte :=
  match n with
  | O => []
  | S n' => be_encode n' (x / 256) ++ [byte_of_Z x]
  end.

Definition be_decode (bs : list byte) : Z :=
  fold_left (fun acc b => (acc * 256 + Z_of_byte b)%Z) bs 0%Z.

(** Modelled from the spec: yb/util/uuid.h is not in src. A [Uuid] is a
    128-bit quantity, read as the unsigned integer its 16 bytes spell in
    network order. *)
Definition Uuid : Set := Z.

(** Modelled from the spec: the size constant of the missing uuid.h; a UUID
    is 128 bits. *)
Definition kUuidSize : nat := 16.

(** Modelled from the spec: the version field of a UUID (uuid.h is
    missing): the high nibble of byte 6 of the network-order image, bits
    76..79 of the integer. *)
Definition Uuid_version (u : Uuid) : Z := Z.land (Z.shiftr u 76) 15.

(** Modelled from the spec: [Uuid::IsTimeUuid] (uuid.h is missing) is OK
    when the version field indicates a time-based UUID (version 1) and
    InvalidArgument otherwise. *)
Definition Uuid_IsTimeUuid (u : Uuid) : Status :=
  if (Uuid_version u =? 1)%Z then OK else InvalidArgument.

(** Modelled from the spec: [Uuid::ToBytes] (uuid.h is missing) gives the
    16 bytes in network order. *)
Definition Uuid_ToBytes (u : Uuid) : Status * list byte :=
  (OK, be_encode kUuidSize u).

(** Modelled from the spec: [Uuid::FromBytes] (uuid.h is missing) accepts
    exactly 16 bytes; anything else is malformed, InvalidArgument. *)
Definition Uuid_FromBytes (bs : list byte) : Status * Uuid :=
  if (length bs =? kUuidSize)%nat then (OK, be_decode bs) else (InvalidArgument, 0%Z).

(** Modelled from the spec: yb/util/net/inetaddress.h is not in src. An
    address is 4 bytes (IPv4) or 16 bytes (IPv6) in canonical form. *)
Inductive InetAddress : Set :=
| InetV4 (a : Z)
| InetV6 (a : Z).

(** Modelled from the spec: a default-constructed [InetAddress]
    (inetaddress.h is missing). *)
Definition default_InetAddress : InetAddress := InetV4 0.

(** Modelled from the spec: [InetAddress::ToBytes] (inetaddress.h is
    missing) gives the canonical 4 or 16 bytes. *)
Definition Inet_ToBytes (a : InetAddress) : Status * list byte :=
  match a with
  | InetV4 x => (OK, be_encode 4 x)
  | InetV6 x => (OK, be_encode 16 x)
  end.

(** Modelled from the spec: [InetAddress::FromBytes] (inetaddress.h is
    missing) accepts 4 or 16 bytes; other byte strings are malformed,
    InvalidArgument. *)
Definition Inet_FromBytes (bs : list byte) : Status * InetAddress :=
  if (length bs =? 4)%nat then (OK, InetV4 (be_decode bs))
  else if (length bs =? 16)%nat then (OK, InetV6 (be_decode bs))
  else (InvalidArgument, default_InetAddress).

(** ** The value record *)

(** Modelled from the spec: yql_protocol.proto (the YQLValuePB message) is
    not in src. The record is a oneof: no field set ([VALUE_NOT_SET], the
    null value) or exactly one of the seventeen payloads the getters of
    yql_value.h name. Floats and doubles are held by their IEEE-754 bit
    pattern; decimal, inet address, uuid and timeuuid as encoded byte
    strings. *)
Inductive YQLValuePB : Type :=
| VALUE_NOT_SET
| PB_int8_value (x : Z)
| PB_int16_value (x : Z)
| PB_int32_value (x : Z)
| PB_int64_value (x : Z)
| PB_float_value (bits : Z)
| PB_double_value (bits : Z)
| PB_decimal_value (s : list byte)
| PB_bool_value (b : bool)
| PB_string_value (s : list byte)
| PB_timestamp_value (x : Z)
| PB_binary_value (s : list byte)
| PB_inetaddress_value (s : list byte)
| PB_map_value (keys values : list YQLValuePB)
| PB_set_value (elems : list YQLValuePB)
| PB_list_value (elems : list YQLValuePB)
| PB_uuid_value (s : list byte)
| PB_timeuuid_value (s : list byte).

(** Modelled from the spec: the map message of the missing
    yql_protocol.proto, a key sequence and a value sequence. *)
Record YQLMapValuePB : Type := mkMap { map_keys : list YQLValuePB; map_values : list YQLValuePB }.

(** Modelled from the spec: the sequence message of the missing
    yql_protocol.proto, used by set and list. *)
Record YQLSeqValuePB : Type := mkSeq { seq_elems : list YQLValuePB }.

(** Modelled from the spec: [YQLValuePB::ValueCase], the tag of the
    oneof (yql_protocol.proto is missing): one case per payload and
    [VALUE_NOT_SET], here [kValueNotSet]. *)
Inductive InternalType : Set :=
| kValueNotSet
| kInt8Value | kInt16Value | kInt32Value | kInt64Value
| kFloatValue | kDoubleValue | kDecimalValue | kBoolValue
| kStringValue | kTimestampValue | kBinaryValue | kInetaddressValue
| kMapValue | kSetValue | kListValue | kUuidValue | kTimeuuidValue.

Definition InternalType_eqb (a b : InternalType) : bool :=
  match a, b with
  | kValueNotSet, kValueNotSet | kInt8Value, kInt8Value | kInt16Value, kInt16Value
  | kInt32Value, kInt32Value | kInt64Value, kInt64Value | kFloatValue, kFloatValue
  | kDoubleValue, kDoubleValue | kDecimalValue, kDecimalValue | kBoolValue, kBoolValue
  | kStringValue, kStringValue | kTimestampValue, kTimestampValue
  | kBinaryValue, kBinaryValue | kInetaddressValue, kInetaddressValue
  | kMapValue, kMapValue | kSetValue, kSetValue | kListValue, kListValue
  | kUuidValue, kUuidValue | kTimeuuidValue, kTimeuuidValue => true
  | _, _ => false
  end.

Definition value_case (v : YQLValuePB) : InternalType :=
  match v with
  | VALUE_NOT_SET => kValueNotSet
  | PB_int8_value _ => kInt8Value
  | PB_int16_value _ => kInt16Value
  | PB_int32_value _ => kInt32Value
  | PB_int64_value _ => kInt64Value
  | PB_float_value _ => kFloatValue
  | PB_double_value _ => kDoubleValue
  | PB_decimal_value _ => kDecimalValue
  | PB_bool_value _ => kBoolValue
  | PB_string_value _ => kStringValue
  | PB_timestamp_value _ => kTimestampValue
  | PB_binary_value _ => kBinaryValue
  | PB_inetaddress_value _ => kInetaddressValue
  | PB_map_value _ _ => kMapValue
  | PB_set_value _ => kSetValue
  | PB_list_value _ => kListValue
  | PB_uuid_value _ => kUuidValue
  | PB_timeuuid_value _ => kTimeuuidValue
  end.

(** The [has_<field>()] tests that protoc generates for a oneof: the field
    is the active one. *)
Definition has_field (f : InternalType) (v : YQLValuePB) : bool :=
  InternalType_eqb (value_case v) f.

(** The field readers that protoc generates for a oneof: the payload when
    the field is the active one, the field's default otherwise. *)
Module Field.
Definition int8_value v := match v with PB_int8_value x => x | _ => 0%Z end.
Definition int16_value v := match v with PB_int16_value x => x | _ => 0%Z end.
Definition int32_value v := match v with PB_int32_value x => x | _ => 0%Z end.
Definition int64_value v := match v with PB_int64_value x => x | _ => 0%Z end.
Definition float_value v := match v with PB_float_value x => x | _ => 0%Z end.
Definition double_value v := match v with PB_double_value x => x | _ => 0%Z end.
Definition decimal_value v : list byte := match v with PB_decimal_value s => s | _ => [] end.
Definition bool_value v := match v with PB_bool_value b => b | _ => false end.
Definition string_value v : list byte := match v with PB_string_value s => s | _ => [] end.
Definition timestamp_value v := match v with PB_timestamp_value x => x | _ => 0%Z end.
Definition binary_value v : list byte := match v with PB_binary_value s => s | _ => [] end.
Definition inetaddress_value v : list byte :=
    match v with PB_inetaddress_value s => s | _ => [] end.
Definition map_value v : YQLMapValuePB :=
    match v with PB_map_value ks vs => mkMap ks vs | _ => mkMap [] [] end.
Definition set_value v : YQLSeqValuePB :=
    match v with PB_set_value es => mkSeq es | _ => mkSeq [] end.
Definition list_value v : YQLSeqValuePB :=
    match v with PB_list_value es => mkSeq es | _ => mkSeq [] end.
Definition uuid_value v : list byte := match v with PB_uuid_value s => s | _ => [] end.
Definition timeuuid_value v : list byte :=
    match v with PB_timeuuid_value s => s | _ => [] end.
End Field.

(** ** The static YQLValue functions over a YQLValuePB *)

Definition type (v : YQLValuePB) : InternalType := value_case v.

Definition IsNull (v : YQLValuePB) : bool := InternalType_eqb (value_case v) kValueNotSet.

(** Modelled from the spec: the body of [SetNull] is in yql_value.cc, not
    in src; it clears the tag and releases any payload. *)
Definition SetNull (v : YQLValuePB) : YQLValuePB := VALUE_NOT_SET.

(** [YQL_GET_VALUE(v, type, field)] *)
Definition YQL_GET_VALUE {A B} (has : bool) (cast : A -> B) (field : A) : Outcome B :=
  CHECK has (Returns (cast field)).

Definition int8_value (v : YQLValuePB) : Outcome Z :=
  YQL_GET_VALUE (has_field kInt8Value v) (static_cast_signed 8) (Field.int8_value v).
Definition int16_value (v : YQLValuePB) : Outcome Z :=
  YQL_GET_VALUE (has_field kInt16Value v) (static_cast_signed 16) (Field.int16_value v).
Definition int32_value (v : YQLValuePB) : Outcome Z :=
  YQL_GET_VALUE (has_field kInt32Value v) (static_cast_signed 32) (Field.int32_value v).
Definition int64_value (v : YQLValuePB) : Outcome Z :=
  YQL_GET_VALUE (has_field kInt64Value v) (static_cast_signed 64) (Field.int64_value v).
Definition float_value (v : YQLValuePB) : Outcome Z :=
  YQL_GET_VALUE (has_field kFloatValue v) id (Field.float_value v).
Definition double_value (v : YQLValuePB) : Outcome Z :=
  YQL_GET_VALUE (has_field kDoubleValue v) id (Field.double_value v).
Definition decimal_value (v : YQLValuePB) : Outcome (list byte) :=
  CHECK (has_field kDecimalValue v) (Returns (Field.decimal_value v)).
Definition bool_value (v : YQLValuePB) : Outcome bool :=
  YQL_GET_VALUE (has_field kBoolValue v) id (Field.bool_value v).
Definition string_value (v : YQLValuePB) : Outcome (list byte) :=
  CHECK (has_field kStringValue v) (Returns (Field.string_value v)).
Definition timestamp_value (v : YQLValuePB) : Outcome Timestamp :=
  CHECK (has_field kTimestampValue v) (Returns (Timestamp_of_int64 (Field.timestamp_value v))).
Definition binary_value (v : YQLValuePB) : Outcome (list byte) :=
  CHECK (has_field kBinaryValue v) (Returns (Field.binary_value v)).
Definition map_value (v : YQLValuePB) : Outcome YQLMapValuePB :=
  CHECK (has_field kMapValue v) (Returns (Field.map_value v)).
Definition set_value (v : YQLValuePB) : Outcome YQLSeqValuePB :=
  CHECK (has_field kSetValue v) (Returns (Field.set_value v)).
Definition list_value (v : YQLValuePB) : Outcome YQLSeqValuePB :=
  CHECK (has_field kListValue v) (Returns (Field.list_value v)).

Definition inetaddress_value (v : YQLValuePB) : Outcome InetAddress :=
  CHECK (has_field kInetaddressValue v)
    (let '(st, addr) := Inet_FromBytes (Field.inetaddress_value v) in
     CHECK_OK st (Returns addr)).

Definition uuid_value (v : YQLValuePB) : Outcome Uuid :=
  CHECK (has_field kUuidValue v)
    (let '(st, uuid) := Uuid_FromBytes (Field.uuid_value v) in
     CHECK_OK st (Returns uuid)).

Definition timeuuid_value (v : YQLValuePB) : Outcome Uuid :=
  CHECK (has_field kTimeuuidValue v)
    (let '(st, timeuuid) := Uuid_FromBytes (Field.timeuuid_value v) in
     CHECK_OK st
       (CHECK_OK (Uuid_IsTimeUuid timeuuid) (Returns timeuuid))).

(** *** Setters

    A generated [set_<field>] clears whatever field was active and makes
    <field> the active one. The record being written is the last
    argument. *)

Definition set_int8_value (val : Z) (v : YQLValuePB) : YQLValuePB := PB_int8_value val.
Definition set_int16_value (val : Z) (v : YQLValuePB) : YQLValuePB := PB_int16_value val.
Definition set_int32_value (val : Z) (v : YQLValuePB) : YQLValuePB := PB_int32_value val.
Definition set_int64_value (val : Z) (v : YQLValuePB) : YQLValuePB := PB_int64_value val.
Definition set_float_value (val : Z) (v : YQLValuePB) : YQLValuePB := PB_float_value val.
Definition set_double_value (val : Z) (v : YQLValuePB) : YQLValuePB := PB_double_value val.
Definition set_decimal_value (val : list byte) (v : YQLValuePB) : YQLValuePB :=
  PB_decimal_value val.
Definition set_bool_value (val : bool) (v : YQLValuePB) : YQLValuePB := PB_bool_value val.
Definition set_string_value (val : list byte) (v : YQLValuePB) : YQLValuePB :=
  PB_string_value val.
Definition set_timestamp_value (val : Timestamp) (v : YQLValuePB) : YQLValuePB :=
  PB_timestamp_value (ToInt64 val).
Definition set_binary_value (val : list byte) (v : YQLValuePB) : YQLValuePB :=
  PB_binary_value val.

Definition set_inetaddress_value (val : InetAddress) (v : YQLValuePB) : Outcome YQLValuePB :=
  let '(st, bytes) := Inet_ToBytes val in
  CHECK_OK st (Returns (PB_inetaddress_value bytes)).

Definition set_uuid_value (val : Uuid) (v : YQLValuePB) : Outcome YQLValuePB :=
  let '(st, bytes) := Uuid_ToBytes val in
  CHECK_OK st (Returns (PB_uuid_value bytes)).

Definition set_timeuuid_value (val : Uuid) (v : YQLValuePB) : Outcome YQLValuePB :=
  CHECK_OK (Uuid_IsTimeUuid val)
    (let '(st, bytes) := Uuid_ToBytes val in
     CHECK_OK st (Returns (PB_timeuuid_value bytes))).

(** *** Collections

    The generated [mutable_<field>()] of a message field in a oneof: when
    <field> is not the active one, the oneof is cleared, <field> becomes
    active and an empty message is allocated; the message is then handed
    out for writing. *)

Definition mutable_map_value (v : YQLValuePB) : YQLValuePB :=
  if has_field kMapValue v then v else PB_map_value [] [].
Definition mutable_set_value (v : YQLValuePB) : YQLValuePB :=
  if has_field kSetValue v then v else PB_set_value [].
Definition mutable_list_value (v : YQLValuePB) : YQLValuePB :=
  if has_field kListValue v then v else PB_list_value [].

Definition set_map_value (v : YQLValuePB) : YQLValuePB := mutable_map_value v.
Definition set_set_value (v : YQLValuePB) : YQLValuePB := mutable_set_value v.
Definition set_list_value (v : YQLValuePB) : YQLValuePB := mutable_list_value v.

(** The [YQLValuePB*] an [add_*] call returns points at an element of the
    record it was called on: the position it designates stands for it. *)
Inductive ElemPtr : Set :=
| KeyAt (i : nat)
| ValueAt (i : nat)
| SetElemAt (i : nat)
| ListElemAt (i : nat).

(** The generated [add_keys()], [add_values()], [add_elems()] of the
    repeated fields: append a fresh (unset) record, return its address. *)
Definition add_keys (v : YQLValuePB) : YQLValuePB * ElemPtr :=
  match v with
  | PB_map_value ks vs => (PB_map_value (ks ++ [VALUE_NOT_SET]) vs, KeyAt (length ks))
  | _ => (v, KeyAt 0)
  end.
Definition add_values (v : YQLValuePB) : YQLValuePB * ElemPtr :=
  match v with
  | PB_map_value ks vs => (PB_map_value ks (vs ++ [VALUE_NOT_SET]), ValueAt (length vs))
  | _ => (v, ValueAt 0)
  end.
Definition add_set_elems (v : YQLValuePB) : YQLValuePB * ElemPtr :=
  match v with
  | PB_set_value es => (PB_set_value (es ++ [VALUE_NOT_SET]), SetElemAt (length es))
  | _ => (v, SetElemAt 0)
  end.
Definition add_list_elems (v : YQLValuePB) : YQLValuePB * ElemPtr :=
  match v with
  | PB_list_value es => (PB_list_value (es ++ [VALUE_NOT_SET]), ListElemAt (length es))
  | _ => (v, ListElemAt 0)
  end.

Definition add_map_key (v : YQLValuePB) : YQLValuePB * ElemPtr :=
  add_keys (mutable_map_value v).
Definition add_map_value (v : YQLValuePB) : YQLValuePB * ElemPtr :=
  add_values (mutable_map_value v).
Definition add_set_elem (v : YQLValuePB) : YQLValuePB * ElemPtr :=
  add_set_elems (mutable_set_value v).
Definition add_list_elem (v : YQLValuePB) : YQLValuePB * ElemPtr :=
  add_list_elems (mutable_list_value v).

(** Reading and writing through such a pointer. *)
Definition deref (p : ElemPtr) (v : YQLValuePB) : option YQLValuePB :=
  match p, v with
  | KeyAt i, PB_map_value ks _ => ks !! i
  | ValueAt i, PB_map_value _ vs => vs !! i
  | SetElemAt i, PB_set_value es => es !! i
  | ListElemAt i, PB_list_value es => es !! i
  | _, _ => None
  end.

Definition store (p : ElemPtr) (x : YQLValuePB) (v : YQLValuePB) : YQLValuePB :=
  match p, v with
  | KeyAt i, PB_map_value ks vs => PB_map_value (<[i:=x]> ks) vs
  | ValueAt i, PB_map_value ks vs => PB_map_value ks (<[i:=x]> vs)
  | SetElemAt i, PB_set_value es => PB_set_value (<[i:=x]> es)
  | ListElemAt i, PB_list_value es => PB_list_value (<[i:=x]> es)
  | _, _ => v
  end.




(** *** Assignment (YQLValueWithPB)

    [CopyFrom] and [Swap] are the methods protoc generates for every
    message: [CopyFrom] clears the receiver and copies the argument into
    it, [Swap] exchanges the contents of the two messages. The pair
    returned is (receiver, argument) after the call. *)

Definition CopyFrom (this other : YQLValuePB) : YQLValuePB * YQLValuePB := (other, other).
Definition Swap (this other : YQLValuePB) : YQLValuePB * YQLValuePB := (other, this).

Definition Assign (this other : YQLValuePB) : YQLValuePB * YQLValuePB := CopyFrom this other.
Definition AssignMove (this other : YQLValuePB) : YQLValuePB * YQLValuePB := Swap this other.

(** [operator=(const YQLValuePB&)] and [operator=(YQLValuePB&&)] *)
Definition assign_copy (this other : YQLValuePB) : YQLValuePB * YQLValuePB := Assign this other.
Definition assign_move (this other : YQLValuePB) : YQLValuePB * YQLValuePB :=
  AssignMove this other.

(** *** Comparison methods of the abstract class

    [IsNull] and [CompareTo] are virtual; [CompareTo] is implemented in
    yql_value.cc and aborts on values that are not comparable. The
    operators short-circuit on [BothNotNull]. *)
Section Comparison.
Context {V : Type}.
Variable is_null : V -> bool.
Variable CompareTo : V -> V -> Outcome Z.

Definition BothNotNull (a b : V) : bool := negb (is_null a) && negb (is_null b).
Definition EitherIsNull (a b : V) : bool := is_null a || is_null b.

Definition op_lt (a b : V) : Outcome bool :=
  if BothNotNull a b then (c <- CompareTo a b ;; Returns (c <? 0)%Z) else Returns false.
Definition op_gt (a b : V) : Outcome bool :=
  if BothNotNull a b then (c <- CompareTo a b ;; Returns (c >? 0)%Z) else Returns false.
Definition op_le (a b : V) : Outcome bool :=
  if BothNotNull a b then (c <- CompareTo a b ;; Returns (c <=? 0)%Z) else Returns false.
Definition op_ge (a b : V) : Outcome bool :=
  if BothNotNull a b then (c <- CompareTo a b ;; Returns (c >=? 0)%Z) else Returns false.
Definition op_eq (a b : V) : Outcome bool :=
  if BothNotNull a b then (c <- CompareTo a b ;; Returns (c =? 0)%Z) else Returns false.
Definition op_ne (a b : V) : Outcome bool :=
  if BothNotNull a b then (c <- CompareTo a b ;; Returns (negb (c =? 0)%Z)) else Returns false.
End Comparison.

Definition Comparable (a b : YQLValuePB) : bool :=
  InternalType_eqb (type a) (type b) || EitherIsNull IsNull a b.

(** ** Wire codec *)

(** Modelled from the spec: [Slice] (yb/util/slice.h is not in src), the
    input cursor: the bytes that remain to be read. *)
Definition Slice : Type := list byte.

(** Modelled from the spec: [faststring] (not in src), the output buffer
    bytes are appended to. *)
Definition faststring : Type := list byte.

(** Modelled from the spec: the YQLClient enumeration is declared in
    yql_protocol.proto, not in src; the negotiated client-protocol version
    does not change the byte layout. *)
Definition YQLClient : Set := nat.

(** Modelled from the spec: yb/common/yql_type.h is not in src. A logical
    type is one of the scalar tags, or a collection tag carrying the
    declared element (key and value) types. *)
Inductive YQLType : Set :=
| INT8 | INT16 | INT32 | INT64
| FLOAT | DOUBLE | DECIMAL | BOOL
| STRING | TIMESTAMP | BINARY | INET
| UUID | TIMEUUID
| MAP (keys_type values_type : YQLType)
| SET (elems_type : YQLType)
| LIST (elems_type : YQLType).

(** Reading from a cursor: the bytes left travel with the result; a
    non-OK status or an abort ends the read. *)
Definition Decode (A : Type) : Type := Slice -> Outcome (A * Slice).

Definition decode_ret {A} (a : A) : Decode A := fun data => Returns (a, data).
Definition decode_fail {A} (s : Status) : Decode A := fun _ => Fails s.
Definition decode_lift {A} (o : Outcome A) : Decode A :=
  fun data => a <- o ;; Returns (a, data).
Definition decode_bind {A B} (m : Decode A) (k : A -> Decode B) : Decode B :=
  fun data =>
    match m data with
    | Returns (a, data') => k a data'
    | Fails s => Fails s
    | Aborts => Aborts
    end.

Notation "x <~ c ;; k" := (decode_bind c (fun x => k))
  (at level 100, c at next level, right associativity).

(** Modelled from the spec: NetworkByteOrder::Load8/16/32/64 (not in src),
    the converters from network byte order: each reads the 1, 2, 4 or 8
    leading bytes at the address it is given. *)
Definition Load8 (p : Slice) : Z := be_decode (take 1 p).
Definition Load16 (p : Slice) : Z := be_decode (take 2 p).
Definition Load32 (p : Slice) : Z := be_decode (take 4 p).
Definition Load64 (p : Slice) : Z := be_decode (take 8 p).

(** Modelled from the spec: [CQLDecodeNum] is defined outside src. Given a
    fixed byte length and a byte-order converter it reads exactly that many
    bytes, converts, casts to the target integer type, and fails with
    Corruption if fewer bytes remain than declared. *)
Definition CQLDecodeNum (len : nat) (converter : Slice -> Z) (num_type : Z -> Z) : Decode Z :=
  fun data =>
    if (length data <? len)%nat then Fails Corruption
    else Returns (num_type (converter data), drop len data).

(** Modelled from the spec: [CQLDecodeFloat] is defined outside src; as
    [CQLDecodeNum], the value read being the bit pattern of the float. *)
Definition CQLDecodeFloat (len : nat) (converter : Slice -> Z) : Decode Z :=
  fun data =>
    if (length data <? len)%nat then Fails Corruption
    else Returns (converter data, drop len data).

(** [YQLValue::CQLDeserializeNum]: [this] is the record the setter writes. *)
Definition CQLDeserializeNum (len : nat) (converter : Slice -> Z) (num_type : Z -> Z)
    (setter : Z -> YQLValuePB -> YQLValuePB) (this : YQLValuePB) : Decode YQLValuePB :=
  value <~ CQLDecodeNum len converter num_type ;;
  decode_ret (setter value this).

(** [YQLValue::CQLDeserializeFloat] *)
Definition CQLDeserializeFloat (len : nat) (converter : Slice -> Z)
    (setter : Z -> YQLValuePB -> YQLValuePB) (this : YQLValuePB) : Decode YQLValuePB :=
  value <~ CQLDecodeFloat len converter ;;
  decode_ret (setter value this).

(** *** Encoding *)

(** Modelled from the spec: the encoders of yql_value.cc are not in src. A
    length or count is a signed 4-byte integer in network byte order. *)
Definition CQLEncodeLength (len : Z) : list byte := be_encode 4 len.

(** Modelled from the spec: a byte string travels as its 4-byte length
    followed by that many raw bytes (encoder not in src). *)
Definition CQLEncodeBytes (bs : list byte) : list byte :=
  CQLEncodeLength (Z.of_nat (length bs)) ++ bs.

(** Modelled from the spec: an element of a collection is itself
    length-prefixed and then encoded per its element type; the null check
    is made here, one level above the element's own encoder, and a null
    element is a negative length with no payload (encoder not in src). *)
Definition encode_elem (enc : YQLValuePB -> Outcome (list byte)) (e : YQLValuePB)
    : Outcome (list byte) :=
  if IsNull e then Returns (CQLEncodeLength (-1))
  else bs <- enc e ;; Returns (CQLEncodeBytes bs).

(** Modelled from the spec: the elements of a set or list, one after the
    other (encoder not in src). *)
Fixpoint encode_elems (enc : YQLValuePB -> Outcome (list byte)) (es : list YQLValuePB)
    : Outcome (list byte) :=
  match es with
  | [] => Returns []
  | e :: es' =>
      b <- encode_elem enc e ;;
      bs <- encode_elems enc es' ;;
      Returns (b ++ bs)
  end.

(** Modelled from the spec: the pairs of a map, key then value, paired by
    index; a key without a value at its index is out of range (encoder not
    in src). *)
Fixpoint encode_pairs (enck encv : YQLValuePB -> Outcome (list byte))
    (ks vs : list YQLValuePB) : Outcome (list byte) :=
  match ks, vs with
  | [], _ => Returns []
  | k :: ks', x :: vs' =>
      bk <- encode_elem enck k ;;
      bx <- encode_elem encv x ;;
      bs <- encode_pairs enck encv ks' vs' ;;
      Returns (bk ++ bx ++ bs)
  | _ :: _, [] => Aborts
  end.

(** Modelled from the spec: a null of a length-prefixed type is a single
    negative 4-byte length and no payload (encoder not in src). *)
Definition encode_nullable (v : YQLValuePB) (payload : Outcome (list byte))
    : Outcome (list byte) :=
  if IsNull v then Returns (CQLEncodeLength (-1)) else payload.

(** Modelled from the spec: the body of [YQLValue::Serialize] is in
    yql_value.cc, not in src. The layout is the one of spec section 4.3:
    fixed-width numerics, boolean and timestamp in network byte order
    without a length prefix; uuid and timeuuid as 16 bytes; decimal, text,
    binary and inet address as a 4-byte length and the bytes; collections
    as a 4-byte count and the elements. Payloads are read through the typed
    getters of the facade, so a null handed to a fixed-width encoder (which
    must never happen) trips the getter's CHECK. *)
Fixpoint SerializeValue (yql_type : YQLType) (client : YQLClient) (v : YQLValuePB)
    : Outcome (list byte) :=
  match yql_type with
  | INT8 => x <- int8_value v ;; Returns (be_encode 1 x)
  | INT16 => x <- int16_value v ;; Returns (be_encode 2 x)
  | INT32 => x <- int32_value v ;; Returns (be_encode 4 x)
  | INT64 => x <- int64_value v ;; Returns (be_encode 8 x)
  | FLOAT => x <- float_value v ;; Returns (be_encode 4 x)
  | DOUBLE => x <- double_value v ;; Returns (be_encode 8 x)
  | BOOL => b <- bool_value v ;; Returns (be_encode 1 (if b then 1 else 0))
  | TIMESTAMP => x <- timestamp_value v ;; Returns (be_encode 8 (ToInt64 x))
  | UUID =>
      u <- uuid_value v ;;
      let '(st, bytes) := Uuid_ToBytes u in
      CHECK_OK st (Returns bytes)
  | TIMEUUID =>
      u <- timeuuid_value v ;;
      let '(st, bytes) := Uuid_ToBytes u in
      CHECK_OK st (Returns bytes)
  | DECIMAL =>
      encode_nullable v (s <- decimal_value v ;; Returns (CQLEncodeBytes s))
  | STRING =>
      encode_nullable v (s <- string_value v ;; Returns (CQLEncodeBytes s))
  | BINARY =>
      encode_nullable v (s <- binary_value v ;; Returns (CQLEncodeBytes s))
  | INET =>
      encode_nullable v
        (a <- inetaddress_value v ;;
         let '(st, bytes) := Inet_ToBytes a in
         CHECK_OK st (Returns (CQLEncodeBytes bytes)))
  | MAP keys_type values_type =>
      encode_nullable v
        (m <- map_value v ;;
         bs <- encode_pairs (SerializeValue keys_type client)
                 (SerializeValue values_type client) (map_keys m) (map_values m) ;;
         Returns (CQLEncodeLength (Z.of_nat (length (map_keys m))) ++ bs))
  | SET elems_type =>
      encode_nullable v
        (s <- set_value v ;;
         bs <- encode_elems (SerializeValue elems_type client) (seq_elems s) ;;
         Returns (CQLEncodeLength (Z.of_nat (length (seq_elems s))) ++ bs))
  | LIST elems_type =>
      encode_nullable v
        (l <- list_value v ;;
         bs <- encode_elems (SerializeValue elems_type client) (seq_elems l) ;;
         Returns (CQLEncodeLength (Z.of_nat (length (seq_elems l))) ++ bs))
  end.

(** Modelled from the spec: [YQLValue::Serialize] (body not in src)
    appends the image of the record to [buffer]. *)
Definition Serialize (yql_type : YQLType) (client : YQLClient) (v : YQLValuePB)
    (buffer : faststring) : Outcome faststring :=
  bs <- SerializeValue yql_type client v ;; Returns (buffer ++ bs).

(** *** Decoding *)

(** Modelled from the spec: a length or count is read as a signed 4-byte
    integer in network byte order (decoder not in src). *)
Definition CQLDecodeLength : Decode Z := CQLDecodeNum 4 Load32 (static_cast_signed 32).

(** Modelled from the spec: the raw bytes a length declares; Corruption if
    the declared length exceeds the remaining input (decoder not in
    src). *)
Definition CQLDecodeBytes (len : Z) : Decode (list byte) :=
  fun data =>
    if (Z.of_nat (length data) <? len)%Z then Fails Corruption
    else Returns (take (Z.to_nat len) data, drop (Z.to_nat len) data).

(** Modelled from the spec: a length-prefixed element (decoder not in
    src): a negative length is a null element; the element is otherwise
    decoded from exactly the bytes its length declares. *)
Definition decode_elem (dec : Decode YQLValuePB) : Decode YQLValuePB :=
  len <~ CQLDecodeLength ;;
  if (len <? 0)%Z then decode_ret VALUE_NOT_SET
  else
    bytes <~ CQLDecodeBytes len ;;
    decode_lift (r <- dec bytes ;; Returns r.1).

(** Modelled from the spec: the [n] elements of a set or list (decoder not
    in src). *)
Fixpoint decode_elems (dec : Decode YQLValuePB) (n : nat) : Decode (list YQLValuePB) :=
  match n with
  | O => decode_ret []
  | S n' =>
      e <~ decode_elem dec ;;
      es <~ decode_elems dec n' ;;
      decode_ret (e :: es)
  end.

(** Modelled from the spec: the [n] pairs of a map, key then value
    (decoder not in src). *)
Fixpoint decode_pairs (deck decv : Decode YQLValuePB) (n : nat)
    : Decode (list YQLValuePB * list YQLValuePB) :=
  match n with
  | O => decode_ret ([], [])
  | S n' =>
      k <~ decode_elem deck ;;
      x <~ decode_elem decv ;;
      kvs <~ decode_pairs deck decv n' ;;
      decode_ret (k :: kvs.1, x :: kvs.2)
  end.

(** Modelled from the spec: a negative length prefix denotes null and
    short-circuits to [SetNull] without reading further bytes (decoder not
    in src). *)
Definition decode_nullable (this : YQLValuePB) (payload : Z -> Decode YQLValuePB)
    : Decode YQLValuePB :=
  len <~ CQLDecodeLength ;;
  if (len <? 0)%Z then decode_ret (SetNull this) else payload len.

(** Modelled from the spec: a type-specific decode check that fails makes
    the decode fail with Corruption (decoder not in src). *)
Definition corrupt_unless {A} (st : Status) (rest : Decode A) : Decode A :=
  if Status_ok st then rest else decode_fail Corruption.

(** Modelled from the spec: the body of [YQLValue::Deserialize] is in
    yql_value.cc, not in src. It consumes the layout of spec section 4.3
    from the cursor and populates the record through the setters; the
    fixed-width numerics go through [CQLDeserializeNum] and
    [CQLDeserializeFloat]; a time-UUID whose version is not time-based is
    Corruption. *)
Fixpoint Deserialize (yql_type : YQLType) (client : YQLClient) (this : YQLValuePB)
    : Decode YQLValuePB :=
  match yql_type with
  | INT8 => CQLDeserializeNum 1 Load8 (static_cast_signed 8) set_int8_value this
  | INT16 => CQLDeserializeNum 2 Load16 (static_cast_signed 16) set_int16_value this
  | INT32 => CQLDeserializeNum 4 Load32 (static_cast_signed 32) set_int32_value this
  | INT64 => CQLDeserializeNum 8 Load64 (static_cast_signed 64) set_int64_value this
  | FLOAT => CQLDeserializeFloat 4 Load32 set_float_value this
  | DOUBLE => CQLDeserializeFloat 8 Load64 set_double_value this
  | BOOL =>
      CQLDeserializeNum 1 Load8 id (fun x => set_bool_value (negb (x =? 0)%Z)) this
  | TIMESTAMP =>
      CQLDeserializeNum 8 Load64 (static_cast_signed 64)
        (fun x => set_timestamp_value (Timestamp_of_int64 x)) this
  | UUID =>
      bytes <~ CQLDecodeBytes (Z.of_nat kUuidSize) ;;
      let '(st, uuid) := Uuid_FromBytes bytes in
      corrupt_unless st (decode_lift (set_uuid_value uuid this))
  | TIMEUUID =>
      bytes <~ CQLDecodeBytes (Z.of_nat kUuidSize) ;;
      let '(st, uuid) := Uuid_FromBytes bytes in
      corrupt_unless st
        (corrupt_unless (Uuid_IsTimeUuid uuid)
           (decode_lift (set_timeuuid_value uuid this)))
  | DECIMAL =>
      decode_nullable this (fun len =>
        bytes <~ CQLDecodeBytes len ;; decode_ret (set_decimal_value bytes this))
  | STRING =>
      decode_nullable this (fun len =>
        bytes <~ CQLDecodeBytes len ;; decode_ret (set_string_value bytes this))
  | BINARY =>
      decode_nullable this (fun len =>
        bytes <~ CQLDecodeBytes len ;; decode_ret (set_binary_value bytes this))
  | INET =>
      decode_nullable this (fun len =>
        bytes <~ CQLDecodeBytes len ;;
        let '(st, addr) := Inet_FromBytes bytes in
        corrupt_unless st (decode_lift (set_inetaddress_value addr this)))
  | MAP keys_type values_type =>
      decode_nullable this (fun count =>
        kvs <~ decode_pairs (Deserialize keys_type client VALUE_NOT_SET)
                 (Deserialize values_type client VALUE_NOT_SET) (Z.to_nat count) ;;
        decode_ret (PB_map_value kvs.1 kvs.2))
  | SET elems_type =>
      decode_nullable this (fun count =>
        es <~ decode_elems (Deserialize elems_type client VALUE_NOT_SET) (Z.to_nat count) ;;
        decode_ret (PB_set_value es))
  | LIST elems_type =>
      decode_nullable this (fun count =>
        es <~ decode_elems (Deserialize elems_type client VALUE_NOT_SET) (Z.to_nat count) ;;
        decode_ret (PB_list_value es))
  end.

(** *** Values that have a wire image

    The records [Serialize] is meant for: the tag is the one of the logical
    type, the payload fits the width of the type, byte strings and element
    counts fit the signed 4-byte prefix, a map pairs as many keys as
    values. Elements of collections may be null at any type; the record
    itself may be null only at the length-prefixed types. *)

Definition fits_signed (w : Z) (x : Z) : bool :=
  (- 2 ^ (w - 1) <=? x)%Z && (x <? 2 ^ (w - 1))%Z.

Definition fits_unsigned (w : Z) (x : Z) : bool :=
  (0 <=? x)%Z && (x <? 2 ^ w)%Z.

Definition fits_length (n : nat) : bool := (Z.of_nat n <? 2 ^ 31)%Z.

Definition elem_on_wire (enc : YQLValuePB -> Outcome (list byte))
    (ok : YQLValuePB -> bool) (e : YQLValuePB) : bool :=
  IsNull e ||
  (ok e && match enc e with
           | Returns bs => fits_length (length bs)
           | _ => false
           end).

Fixpoint on_wire (yql_type : YQLType) (client : YQLClient) (v : YQLValuePB) : bool :=
  match yql_type, v with
  | INT8, PB_int8_value x => fits_signed 8 x
  | INT16, PB_int16_value x => fits_signed 16 x
  | INT32, PB_int32_value x => fits_signed 32 x
  | INT64, PB_int64_value x => fits_signed 64 x
  | FLOAT, PB_float_value x => fits_unsigned 32 x
  | DOUBLE, PB_double_value x => fits_unsigned 64 x
  | BOOL, PB_bool_value _ => true
  | TIMESTAMP, PB_timestamp_value x => fits_signed 64 x
  | UUID, PB_uuid_value s => (length s =? kUuidSize)%nat
  | TIMEUUID, PB_timeuuid_value s =>
      (length s =? kUuidSize)%nat && Status_ok (Uuid_IsTimeUuid (be_decode s))
  | DECIMAL, VALUE_NOT_SET | STRING, VALUE_NOT_SET | BINARY, VALUE_NOT_SET
  | INET, VALUE_NOT_SET | MAP _ _, VALUE_NOT_SET | SET _, VALUE_NOT_SET
  | LIST _, VALUE_NOT_SET => true
  | DECIMAL, PB_decimal_value s => fits_length (length s)
  | STRING, PB_string_value s => fits_length (length s)
  | BINARY, PB_binary_value s => fits_length (length s)
  | INET, PB_inetaddress_value s => (length s =? 4)%nat || (length s =? 16)%nat
  | MAP keys_type values_type, PB_map_value ks vs =>
      fits_length (length ks) && (length ks =? length vs)%nat &&
      forallb (elem_on_wire (SerializeValue keys_type client) (on_wire keys_type client)) ks &&
      forallb (elem_on_wire (SerializeValue values_type client) (on_wire values_type client)) vs
  | SET elems_type, PB_set_value es =>
      fits_length (length es) &&
      forallb (elem_on_wire (SerializeValue elems_type client) (on_wire elems_type client)) es
  | LIST elems_type, PB_list_value es =>
      fits_length (length es) &&
      forallb (elem_on_wire (SerializeValue elems_type client) (on_wire elems_type client)) es
  | _, _ => false
  end.

(** The byte width of the types that travel without a length prefix. *)
Definition fixed_width (yql_type : YQLType) : option nat :=
  match yql_type with
  | INT8 | BOOL => Some 1%nat
  | INT16 => Some 2%nat
  | INT32 | FLOAT => Some 4%nat
  | INT64 | DOUBLE | TIMESTAMP => Some 8%nat
  | UUID | TIMEUUID => Some 16%nat
  | _ => None
  end.

(** The types whose image starts with a 4-byte length: a byte string. *)
Definition length_prefixed_bytes (yql_type : YQLType) : bool :=
  match yql_type with
  | DECIMAL | STRING | BINARY | INET => true
  | _ => false
  end.

(** The round trip of one record, stated on the cursor: what [Serialize]
    appends is read back by [Deserialize] as the same record, with the
    cursor moved past exactly those bytes. *)
Definition round_trips (yql_type : YQLType) (client : YQLClient) (v : YQLValuePB) : Prop :=
  exists bs,
    (forall buffer, Serialize yql_type client v buffer = Returns (buffer ++ bs)) /\
    (forall this rest,
        Deserialize yql_type client this (bs ++ rest) = Returns (v, rest)).

(** ** Virtual tables (yb/master/yql_virtual_table.h) *)

Section VirtualTable.
Context {DataType QLValue T : Type}.

(** [util::GetValue], from yql_vtable_helpers.h. *)
Variable GetValue : T -> DataType -> QLValue.

(** Modelled from the spec: yb/common/schema.h is not in src. A column has
    a name and a type. *)
Record ColumnSchema : Type := mkColumn { column_name : string; column_type : DataType }.

(** Modelled from the spec: [Schema] (schema.h is missing) is its columns
    in order. *)
Record Schema : Type := mkSchema { columns : list ColumnSchema }.

(** Modelled from the spec: [QLRow] (ql_rowblock.h is missing) holds one
    cell per column. *)
Record QLRow : Type := mkRow { cells : list QLValue }.

(** Modelled from the spec: [Schema::kColumnNotFound] (schema.h is
    missing), the index that is no column. *)
Definition kColumnNotFound : Z := (-1)%Z.

(** Modelled from the spec: the lookup of a column by name (schema.h is
    missing), scanning from index [i]. *)
Fixpoint find_column_from (cols : list ColumnSchema) (name : string) (i : Z) : Z :=
  match cols with
  | [] => kColumnNotFound
  | c :: cols' =>
      if String.eqb (column_name c) name then i
      else find_column_from cols' name (i + 1)%Z
  end.

(** Modelled from the spec: [Schema::find_column] (schema.h is missing)
    gives the index of the column of that name, or [kColumnNotFound]. *)
Definition find_column (schema : Schema) (name : string) : Z :=
  find_column_from (columns schema) name 0%Z.

(** Modelled from the spec: [Schema::column] (schema.h is missing), the
    column at an index; no column there is out of range. *)
Definition column (schema : Schema) (idx : Z) : Outcome ColumnSchema :=
  match columns schema !! Z.to_nat idx with
  | Some c => Returns c
  | None => Aborts
  end.

(** Modelled from the spec: [*(row->mutable_column(idx)) = x]
    (ql_rowblock.h is missing) writes the cell at the index; a row without
    that cell is out of range. *)
Definition assign_column (idx : Z) (x : QLValue) (row : QLRow) : Outcome QLRow :=
  if (Z.to_nat idx <? length (cells row))%nat
  then Returns (mkRow (<[Z.to_nat idx := x]> (cells row)))
  else Aborts.

Variable schema_ : Schema.

(** [YQLVirtualTable::SetColumnValue]: the status returned and the row
    after the call. *)
Definition SetColumnValue (col_name : string) (value : T) (row : QLRow)
    : Outcome (Status * QLRow) :=
  let column_index := find_column schema_ col_name in
  if (column_index =? kColumnNotFound)%Z then Returns (NotFound, row)
  else
    c <- column schema_ column_index ;;
    let data_type := column_type c in
    row' <- assign_column column_index (GetValue value data_type) row ;;
    Returns (OK, row').
End VirtualTable.

(** ** Contracts used in the statements below *)

(** What a typed getter does on every record: it returns [payload v] when
    the tag is [tag] and the stored bytes decode, and aborts otherwise. *)
Definition getter_contract {A} (tag : InternalType) (getter : YQLValuePB -> Outcome A)
    (decodes : YQLValuePB -> bool) (payload : YQLValuePB -> A) : Prop :=
  forall v, getter v = if has_field tag v && decodes v then Returns (payload v) else Aborts.

Definition always (v : YQLValuePB) : bool := true.

Definition inet_decodes (v : YQLValuePB) : bool :=
  Status_ok (Inet_FromBytes (Field.inetaddress_value v)).1.
Definition uuid_decodes (v : YQLValuePB) : bool :=
  Status_ok (Uuid_FromBytes (Field.uuid_value v)).1.
Definition timeuuid_decodes (v : YQLValuePB) : bool :=
  Status_ok (Uuid_FromBytes (Field.timeuuid_value v)).1 &&
  Status_ok (Uuid_IsTimeUuid (Uuid_FromBytes (Field.timeuuid_value v)).2).


(** A version-4 (random) UUID and a version-1 (time-based) one. *)
Definition sample_uuid_v4 : Uuid := Z.shiftl 4 76.
Definition sample_uuid_v1 : Uuid := (Z.shiftl 1 76 + 5)%Z.

(** The image [SerializeValue] gives is read back as the same record. *)
Definition value_round_trips (yql_type : YQLType) (client : YQLClient) (v : YQLValuePB)
    : Prop :=
  exists bs,
    SerializeValue yql_type client v = Returns bs /\
    forall this rest, Deserialize yql_type client this (bs ++ rest) = Returns (v, rest).

(** A call that ends in a typed result: it returns, or fails with
    Corruption; it does not abort. *)
Definition returns_or_corruption {A} (o : Outcome A) : Prop :=
  match o with
  | Returns _ => True
  | Fails s => s = Corruption
  | Aborts => False
  end.

Definition is_collection (yql_type : YQLType) : bool :=
  match yql_type with
  | MAP _ _ | SET _ | LIST _ => true
  | _ => false
  end.

(** A list of maps from int8 to text, with a null value and a null
    element. *)
Definition sample_type : YQLType := LIST (MAP INT8 STRING).
Definition sample_value : YQLValuePB :=
  PB_list_value
    [PB_map_value [PB_int8_value (-3); PB_int8_value 5]
                  [PB_string_value [x61; x62]; VALUE_NOT_SET];
     VALUE_NOT_SET].

Definition typed_decoder {A} (m : Decode A) : Prop :=
  forall data, returns_or_corruption (m data).

(** ** Proof steps shared below *)

Ltac getter_cases :=
  let v := fresh "v" in
  intros v; destruct v; try reflexivity.

Ltac getter_on_own_tag :=
  unfold int8_value, int16_value, int32_value, int64_value, float_value, double_value,
    decimal_value, bool_value, string_value, timestamp_value, binary_value, map_value,
    set_value, list_value, YQL_GET_VALUE, CHECK, encode_nullable;
  cbn [has_field value_case InternalType_eqb IsNull outcome_bind id
       Field.int8_value Field.int16_value Field.int32_value Field.int64_value
       Field.float_value Field.double_value Field.decimal_value Field.bool_value
       Field.string_value Field.timestamp_value Field.binary_value Field.map_value
       Field.set_value Field.list_value map_keys map_values seq_elems
       Timestamp_of_int64 ToInt64].

(** A decoder that reads a definite run of bytes: when it returns, the
    bytes it used are a prefix of the input, the bytes after them do not
    matter, and any input that stops inside that prefix makes it fail with
    Corruption. *)
Definition cut_is_corruption {A} (m : Decode A) : Prop :=
  forall data a rest,
    m data = Returns (a, rest) ->
    exists used,
      data = used ++ rest /\
      (forall tail, m (used ++ tail) = Returns (a, tail)) /\
      (forall kept lost, used = kept ++ lost -> lost <> [] -> m kept = Fails Corruption).


(** ** Further operations named in the statements below *)

(** [*add_list_elem() = x;] one populated append to a list. *)
Definition put_list_elem (x : YQLValuePB) (v : YQLValuePB) : YQLValuePB :=
  let '(v1, p) := add_list_elem v in store p x v1.

(** [*add_set_elem() = x;] one populated append to a set. *)
Definition put_set_elem (x : YQLValuePB) (v : YQLValuePB) : YQLValuePB :=
  let '(v1, p) := add_set_elem v in store p x v1.

Definition put_list_elems (xs : list YQLValuePB) (v : YQLValuePB) : YQLValuePB :=
  fold_left (fun acc x => put_list_elem x acc) xs v.

Definition put_set_elems (xs : list YQLValuePB) (v : YQLValuePB) : YQLValuePB :=
  fold_left (fun acc x => put_set_elem x acc) xs v.

(** The call came back with a result (no CHECK tripped). *)
Definition returned {A} (o : Outcome A) : bool :=
  match o with
  | Returns _ => true
  | _ => false
  end.

(** The seventeen typed getters, each with the tag it checks. *)
Definition typed_getters : list (InternalType * (YQLValuePB -> bool)) :=
  [ (kInt8Value, fun v => returned (int8_value v));
    (kInt16Value, fun v => returned (int16_value v));
    (kInt32Value, fun v => returned (int32_value v));
    (kInt64Value, fun v => returned (int64_value v));
    (kFloatValue, fun v => returned (float_value v));
    (kDoubleValue, fun v => returned (double_value v));
    (kDecimalValue, fun v => returned (decimal_value v));
    (kBoolValue, fun v => returned (bool_value v));
    (kStringValue, fun v => returned (string_value v));
    (kTimestampValue, fun v => returned (timestamp_value v));
    (kBinaryValue, fun v => returned (binary_value v));
    (kInetaddressValue, fun v => returned (inetaddress_value v));
    (kMapValue, fun v => returned (map_value v));
    (kSetValue, fun v => returned (set_value v));
    (kListValue, fun v => returned (list_value v));
    (kUuidValue, fun v => returned (uuid_value v));
    (kTimeuuidValue, fun v => returned (timeuuid_value v)) ].

(** Exactly one of three tests holds. *)
Definition exactly_one (l e g : bool) : Prop :=
  (l = true /\ e = false /\ g = false) \/
  (l = false /\ e = true /\ g = false) \/
  (l = false /\ e = false /\ g = true).


(** An address whose number fits its family: 32 bits for IPv4, 128 bits for
    IPv6. *)
Definition InetAddress_fits (a : InetAddress) : Prop :=
  match a with
  | InetV4 x => (0 <= x < 2 ^ 32)%Z
  | InetV6 x => (0 <= x < 2 ^ 128)%Z
  end.

(** * Properties *)

(** ** Bytes and network byte order *)

Lemma Z_of_byte_range (b : byte) : (0 <= Z_of_byte b < 256)%Z.
Proof.
  unfold Z_of_byte. pose proof (Byte.to_N_bounded b). lia.
Qed.

Lemma byte_of_Z_of_byte (b : byte) : byte_of_Z (Z_of_byte b) = b.
Proof.
  unfold byte_of_Z. pose proof (Z_of_byte_range b) as Hb.
  rewrite Z.mod_small by lia. unfold Z_of_byte.
  rewrite N2Z.id. now rewrite Byte.of_to_N.
Qed.

Lemma Z_of_byte_of_Z (z : Z) : Z_of_byte (byte_of_Z z) = (z mod 256)%Z.
Proof.
  unfold byte_of_Z, Z_of_byte.
  pose proof (Z.mod_pos_bound z 256 ltac:(lia)) as Hm.
  destruct (Byte.of_N (Z.to_N (z mod 256))) as [b|] eqn:E.
  - apply Byte.to_of_N in E. rewrite E. lia.
  - apply Byte.of_N_None_iff in E. lia.
Qed.

Lemma byte_of_Z_mod (z : Z) : byte_of_Z (z mod 256) = byte_of_Z z.
Proof. unfold byte_of_Z. now rewrite Z.mod_mod by lia. Qed.

Lemma length_be_encode (n : nat) (x : Z) : length (be_encode n x) = n.
Proof.
  revert x. induction n as [|n IH]; intros x; simpl; [reflexivity|].
  rewrite length_app, IH. simpl. lia.
Qed.

Lemma be_decode_snoc (bs : list byte) (b : byte) :
  be_decode (bs ++ [b]) = (be_decode bs * 256 + Z_of_byte b)%Z.
Proof. unfold be_decode. now rewrite fold_left_app. Qed.

Lemma be_decode_encode (n : nat) (x : Z) :
  be_decode (be_encode n x) = (x mod 2 ^ (8 * Z.of_nat n))%Z.
Proof.
  revert x. induction n as [|n IH]; intros x.
  - cbn. now rewrite Z.mod_1_r.
  - simpl be_encode. rewrite be_decode_snoc, IH, Z_of_byte_of_Z.
    replace (8 * Z.of_nat (S n))%Z with (8 + 8 * Z.of_nat n)%Z by lia.
    rewrite Z.pow_add_r by lia. change (2 ^ 8)%Z with 256%Z.
    rewrite (Z.rem_mul_r x 256 (2 ^ (8 * Z.of_nat n))) by lia. lia.
Qed.

Lemma be_encode_decode (bs : list byte) : be_encode (length bs) (be_decode bs) = bs.
Proof.
  induction bs as [|b bs IH] using rev_ind; [reflexivity|].
  rewrite length_app, be_decode_snoc. simpl length.
  rewrite Nat.add_1_r. simpl be_encode.
  pose proof (Z_of_byte_range b) as Hb.
  replace ((be_decode bs * 256 + Z_of_byte b) / 256)%Z with (be_decode bs).
  2:{ rewrite Z.div_add_l by lia. rewrite Z.div_small by lia. lia. }
  rewrite IH. f_equal. f_equal.
  rewrite <- byte_of_Z_mod, Z.add_comm, Z.mod_add by lia.
  rewrite Z.mod_small by lia. apply byte_of_Z_of_byte.
Qed.

Lemma static_cast_signed_mod (w x : Z) :
  (0 < w)%Z -> static_cast_signed w (x mod 2 ^ w) = static_cast_signed w x.
Proof.
  intros Hw. unfold static_cast_signed. f_equal.
  rewrite Zplus_mod_idemp_l. reflexivity.
Qed.

Lemma static_cast_signed_fits (w x : Z) :
  (0 < w)%Z -> fits_signed w x = true -> static_cast_signed w x = x.
Proof.
  intros Hw Hx. unfold fits_signed in Hx.
  apply andb_prop in Hx as [H1 H2]. apply Z.leb_le in H1. apply Z.ltb_lt in H2.
  unfold static_cast_signed.
  assert (2 ^ w = 2 * 2 ^ (w - 1))%Z as Hp.
  { rewrite <- Z.pow_succ_r by lia. f_equal. lia. }
  rewrite Z.mod_small by lia. lia.
Qed.

(** ** Null-aware relational operators *)

Section ComparisonFacts.
Context {V : Type} (is_null : V -> bool) (CompareTo : V -> V -> Outcome Z).

Lemma BothNotNull_false (a b : V) :
  is_null a = true \/ is_null b = true -> BothNotNull is_null a b = false.
Proof.
  unfold BothNotNull. intros [H|H]; rewrite H; simpl; [reflexivity|].
  apply andb_false_r.
Qed.

Lemma BothNotNull_true (a b : V) :
  BothNotNull is_null a b = true -> is_null a = false /\ is_null b = false.
Proof.
  unfold BothNotNull. intros H. apply andb_prop in H as [Ha Hb].
  split; apply negb_true_iff; assumption.
Qed.

End ComparisonFacts.

(** C2: whenever one operand (or both) is null, each of the six relational
    operators [<], [>], [<=], [>=], [==], [!=] returns false, whatever
    CompareTo would do; so an operator that returns true has two non-null
    operands. *)
Theorem null_operands_compare_false {V : Type} (is_null : V -> bool)
    (CompareTo : V -> V -> Outcome Z) (a b : V) :
  (is_null a = true \/ is_null b = true ->
   op_lt is_null CompareTo a b = Returns false /\
   op_gt is_null CompareTo a b = Returns false /\
   op_le is_null CompareTo a b = Returns false /\
   op_ge is_null CompareTo a b = Returns false /\
   op_eq is_null CompareTo a b = Returns false /\
   op_ne is_null CompareTo a b = Returns false) /\
  (forall op,
   In op [op_lt is_null CompareTo; op_gt is_null CompareTo; op_le is_null CompareTo;
          op_ge is_null CompareTo; op_eq is_null CompareTo; op_ne is_null CompareTo] ->
   op a b = Returns true ->
   is_null a = false /\ is_null b = false).
Proof.
  split.
  - intros H. apply (BothNotNull_false is_null) in H.
    unfold op_lt, op_gt, op_le, op_ge, op_eq, op_ne. rewrite H. repeat split.
  - intros op Hin Htrue.
    apply (BothNotNull_true is_null).
    destruct (BothNotNull is_null a b) eqn:E; [reflexivity|].
    simpl in Hin.
    repeat (destruct Hin as [<-|Hin];
            [unfold op_lt, op_gt, op_le, op_ge, op_eq, op_ne in Htrue;
             rewrite E in Htrue; discriminate|]).
    destruct Hin.
Qed.

Lemma null_operands_compare_false_witness :
  op_lt IsNull (fun _ _ => Aborts) VALUE_NOT_SET (PB_int32_value 1) = Returns false /\
  op_eq IsNull (fun _ _ => Aborts) VALUE_NOT_SET VALUE_NOT_SET = Returns false /\
  op_ne IsNull (fun _ _ => Aborts) (PB_int32_value 1) VALUE_NOT_SET = Returns false.
Proof.
  split; [|split].
  - apply (null_operands_compare_false IsNull (fun _ _ => Aborts)
             VALUE_NOT_SET (PB_int32_value 1)).
    left. reflexivity.
  - apply (null_operands_compare_false IsNull (fun _ _ => Aborts)
             VALUE_NOT_SET VALUE_NOT_SET).
    left. reflexivity.
  - apply (null_operands_compare_false IsNull (fun _ _ => Aborts)
             (PB_int32_value 1) VALUE_NOT_SET).
    right. reflexivity.
Defined.

(** ** Time-UUID setter *)

Lemma Uuid_IsTimeUuid_OK (u : Uuid) : Uuid_IsTimeUuid u = OK <-> Uuid_version u = 1%Z.
Proof.
  unfold Uuid_IsTimeUuid. destruct (Z.eqb_spec (Uuid_version u) 1); split; intros H;
    try reflexivity; try assumption; try discriminate; contradiction.
Qed.

Lemma Uuid_IsTimeUuid_not_OK (u : Uuid) :
  Uuid_version u <> 1%Z -> Uuid_IsTimeUuid u = InvalidArgument.
Proof.
  intros H. unfold Uuid_IsTimeUuid.
  destruct (Z.eqb_spec (Uuid_version u) 1); [contradiction|reflexivity].
Qed.

Lemma Uuid_FromBytes_ToBytes (u : Uuid) :
  (0 <= u < 2 ^ 128)%Z -> Uuid_FromBytes (Uuid_ToBytes u).2 = (OK, u).
Proof.
  intros Hu. unfold Uuid_FromBytes, Uuid_ToBytes. cbn [snd].
  rewrite length_be_encode, Nat.eqb_refl, be_decode_encode.
  change (2 ^ (8 * Z.of_nat kUuidSize))%Z with (2 ^ 128)%Z.
  now rewrite Z.mod_small by lia.
Qed.

(** C3 (amended): [set_timeuuid_value] does not hand back a status. On a
    UUID whose version field is not the time-based one, IsTimeUuid answers
    InvalidArgument and the CHECK_OK around it aborts the call; on a UUID
    whose version field is the time-based one the setter succeeds, stores
    the 16-byte image under the timeuuid tag, and the getter reads the same
    UUID back. *)
Theorem set_timeuuid_value_aborts_unless_time_based (val : Uuid) (v : YQLValuePB) :
  (Uuid_version val <> 1%Z ->
   Uuid_IsTimeUuid val = InvalidArgument /\ set_timeuuid_value val v = Aborts) /\
  (Uuid_version val = 1%Z ->
   set_timeuuid_value val v = Returns (PB_timeuuid_value (be_encode kUuidSize val)) /\
   ((0 <= val < 2 ^ 128)%Z ->
    timeuuid_value (PB_timeuuid_value (be_encode kUuidSize val)) = Returns val)).
Proof.
  split.
  - intros Hv. apply Uuid_IsTimeUuid_not_OK in Hv. split; [assumption|].
    unfold set_timeuuid_value. now rewrite Hv.
  - intros Hv. apply Uuid_IsTimeUuid_OK in Hv. split.
    + unfold set_timeuuid_value. now rewrite Hv.
    + intros Hr. unfold timeuuid_value. cbn [Field.timeuuid_value].
      pose proof (Uuid_FromBytes_ToBytes val Hr) as E.
      unfold Uuid_ToBytes in E. cbn [snd] in E. rewrite E.
      unfold CHECK_OK, CHECK. cbn [has_field value_case InternalType_eqb Status_ok].
      now rewrite Hv.
Qed.

Lemma set_timeuuid_value_aborts_unless_time_based_witness :
  set_timeuuid_value sample_uuid_v4 VALUE_NOT_SET = Aborts /\
  set_timeuuid_value sample_uuid_v1 VALUE_NOT_SET =
    Returns (PB_timeuuid_value (be_encode kUuidSize sample_uuid_v1)) /\
  timeuuid_value (PB_timeuuid_value (be_encode kUuidSize sample_uuid_v1)) =
    Returns sample_uuid_v1.
Proof.
  split; [|split].
  - apply (set_timeuuid_value_aborts_unless_time_based sample_uuid_v4 VALUE_NOT_SET).
    vm_compute. discriminate.
  - apply (set_timeuuid_value_aborts_unless_time_based sample_uuid_v1 VALUE_NOT_SET).
    reflexivity.
  - apply (set_timeuuid_value_aborts_unless_time_based sample_uuid_v1 VALUE_NOT_SET).
    + reflexivity.
    + vm_compute. split; [discriminate | reflexivity].
Defined.

(** C3 (counterexample): a version-4 UUID is refused by IsTimeUuid with
    InvalidArgument, and the setter aborts instead of returning that
    status. *)
Lemma set_timeuuid_value_v4_aborts :
  Uuid_IsTimeUuid sample_uuid_v4 = InvalidArgument /\
  set_timeuuid_value sample_uuid_v4 VALUE_NOT_SET = Aborts /\
  set_timeuuid_value sample_uuid_v4 VALUE_NOT_SET <> Fails InvalidArgument.
Proof. vm_compute. repeat split; discriminate. Qed.

(** ** Assignment *)

(** C4 (amended): copy-assignment makes the destination a copy of the
    source and leaves the source as it was; move-assignment swaps: the
    destination receives the source's tag and payload, and the source is
    left with what the destination held, so it is null afterwards exactly
    when the destination was null before. *)
Theorem assignment_copies_and_swaps (d s : YQLValuePB) :
  Assign d s = (s, s) /\ assign_copy d s = (s, s) /\
  AssignMove d s = (s, d) /\ assign_move d s = (s, d) /\
  IsNull (AssignMove d s).2 = IsNull d.
Proof. repeat split. Qed.

(** C4 (counterexample): moving into a destination that holds a value
    leaves that value in the source, which is then not null. *)
Lemma assign_move_source_not_null :
  AssignMove (PB_int32_value 5) (PB_int32_value 7) = (PB_int32_value 7, PB_int32_value 5) /\
  IsNull (AssignMove (PB_int32_value 5) (PB_int32_value 7)).2 = false.
Proof. split; reflexivity. Qed.

(** ** Typed getters *)

Lemma has_field_value_case (f : InternalType) (v : YQLValuePB) :
  has_field f v = true <-> value_case v = f.
Proof.
  unfold has_field. split.
  - destruct (value_case v), f; simpl; intros H; try reflexivity; discriminate.
  - intros <-. destruct (value_case v); reflexivity.
Qed.

Lemma IsNull_has_no_field (f : InternalType) (v : YQLValuePB) :
  IsNull v = true -> f <> kValueNotSet -> has_field f v = false.
Proof.
  intros Hn Hf. apply (has_field_value_case kValueNotSet) in Hn.
  unfold has_field. rewrite Hn. destruct f; try reflexivity. contradiction.
Qed.

(** C6 (amended): a typed getter aborts on a record whose tag is not its
    own (a null record has no tag). On a record of its own tag, the
    getters of int8 .. binary and of the collections return the stored
    payload, cast to the result type; the getters of inet address, uuid and
    timeuuid first decode the stored bytes and abort as well when these do
    not decode (and, for timeuuid, are not time-based). *)
Theorem typed_getters_contract :
  getter_contract kInt8Value int8_value always
    (fun v => static_cast_signed 8 (Field.int8_value v)) /\
  getter_contract kInt16Value int16_value always
    (fun v => static_cast_signed 16 (Field.int16_value v)) /\
  getter_contract kInt32Value int32_value always
    (fun v => static_cast_signed 32 (Field.int32_value v)) /\
  getter_contract kInt64Value int64_value always
    (fun v => static_cast_signed 64 (Field.int64_value v)) /\
  getter_contract kFloatValue float_value always Field.float_value /\
  getter_contract kDoubleValue double_value always Field.double_value /\
  getter_contract kDecimalValue decimal_value always Field.decimal_value /\
  getter_contract kBoolValue bool_value always Field.bool_value /\
  getter_contract kStringValue string_value always Field.string_value /\
  getter_contract kTimestampValue timestamp_value always Field.timestamp_value /\
  getter_contract kBinaryValue binary_value always Field.binary_value /\
  getter_contract kMapValue map_value always Field.map_value /\
  getter_contract kSetValue set_value always Field.set_value /\
  getter_contract kListValue list_value always Field.list_value /\
  getter_contract kInetaddressValue inetaddress_value inet_decodes
    (fun v => (Inet_FromBytes (Field.inetaddress_value v)).2) /\
  getter_contract kUuidValue uuid_value uuid_decodes
    (fun v => (Uuid_FromBytes (Field.uuid_value v)).2) /\
  getter_contract kTimeuuidValue timeuuid_value timeuuid_decodes
    (fun v => (Uuid_FromBytes (Field.timeuuid_value v)).2) /\
  (forall w x, (0 < w)%Z -> fits_signed w x = true -> static_cast_signed w x = x) /\
  (forall f v, IsNull v = true -> f <> kValueNotSet -> has_field f v = false).
Proof.
  do 14 (split; [getter_cases|]).
  split; [|split; [|split; [|split]]].
  - getter_cases. unfold inetaddress_value, inet_decodes.
    cbn [Field.inetaddress_value].
    destruct (Inet_FromBytes s) as [st addr]. destruct st; reflexivity.
  - getter_cases. unfold uuid_value, uuid_decodes.
    cbn [Field.uuid_value].
    destruct (Uuid_FromBytes s) as [st u]. destruct st; reflexivity.
  - getter_cases. unfold timeuuid_value, timeuuid_decodes.
    cbn [Field.timeuuid_value].
    destruct (Uuid_FromBytes s) as [st u]. destruct st; reflexivity.
  - apply static_cast_signed_fits.
  - intros f v. apply IsNull_has_no_field.
Qed.

Lemma typed_getters_contract_witness :
  int8_value (PB_int8_value 5) = Returns 5%Z /\
  int8_value VALUE_NOT_SET = Aborts /\
  string_value (PB_int32_value 5) = Aborts /\
  static_cast_signed 8 (-128) = (-128)%Z.
Proof.
  destruct typed_getters_contract
    as (Hint8 & _ & _ & _ & _ & _ & _ & _ & Hstring & _ & _ & _ & _ & _ & _ & _ & _
        & Hcast & _).
  split; [|split; [|split]].
  - apply (Hint8 (PB_int8_value 5)).
  - apply (Hint8 VALUE_NOT_SET).
  - apply (Hstring (PB_int32_value 5)).
  - apply (Hcast 8%Z (-128)%Z); [lia|reflexivity].
Defined.

(** C6 (counterexample): a record tagged timeuuid that stores a version-4
    UUID, and a record tagged uuid that stores three bytes: the tag is the
    getter's own and the getter aborts all the same. *)
Lemma tagged_uuid_getters_abort :
  has_field kTimeuuidValue (PB_timeuuid_value (be_encode kUuidSize sample_uuid_v4)) = true /\
  timeuuid_value (PB_timeuuid_value (be_encode kUuidSize sample_uuid_v4)) = Aborts /\
  has_field kUuidValue (PB_uuid_value [x01; x02; x03]) = true /\
  uuid_value (PB_uuid_value [x01; x02; x03]) = Aborts.
Proof. vm_compute. repeat split. Qed.

(** ** The collection append protocol *)


Lemma insert_last (l : list YQLValuePB) (x y : YQLValuePB) :
  <[length l := x]> (l ++ [y]) = l ++ [x].
Proof.
  rewrite insert_app_r_alt by lia. now rewrite Nat.sub_diag.
Qed.






Lemma lookup_snoc_last (l : list YQLValuePB) (x : YQLValuePB) :
  (l ++ [x]) !! length l = Some x.
Proof. now apply list_lookup_middle. Qed.

(** C10: on a record whose tag is not the collection's own (a null record
    included), [add_map_key], [add_map_value], [add_set_elem] and
    [add_list_elem] succeed without a prior [set_*_value]: the record
    becomes an empty collection of that kind and receives one new null
    element, which the returned pointer designates. *)
Theorem add_elem_switches_tag (v : YQLValuePB) :
  (has_field kMapValue v = false ->
   add_map_key v = (PB_map_value [VALUE_NOT_SET] [], KeyAt 0) /\
   add_map_value v = (PB_map_value [] [VALUE_NOT_SET], ValueAt 0)) /\
  (has_field kSetValue v = false ->
   add_set_elem v = (PB_set_value [VALUE_NOT_SET], SetElemAt 0)) /\
  (has_field kListValue v = false ->
   add_list_elem v = (PB_list_value [VALUE_NOT_SET], ListElemAt 0)) /\
  (type (add_map_key v).1 = kMapValue /\
   deref (add_map_key v).2 (add_map_key v).1 = Some VALUE_NOT_SET) /\
  (type (add_map_value v).1 = kMapValue /\
   deref (add_map_value v).2 (add_map_value v).1 = Some VALUE_NOT_SET) /\
  (type (add_set_elem v).1 = kSetValue /\
   deref (add_set_elem v).2 (add_set_elem v).1 = Some VALUE_NOT_SET) /\
  (type (add_list_elem v).1 = kListValue /\
   deref (add_list_elem v).2 (add_list_elem v).1 = Some VALUE_NOT_SET).
Proof.
  split; [|split; [|split]].
  - intros H. unfold add_map_key, add_map_value, mutable_map_value. now rewrite H.
  - intros H. unfold add_set_elem, mutable_set_value. now rewrite H.
  - intros H. unfold add_list_elem, mutable_list_value. now rewrite H.
  - destruct v; repeat split; try reflexivity; cbn; apply lookup_snoc_last.
Qed.

Lemma add_elem_switches_tag_witness :
  add_map_key VALUE_NOT_SET = (PB_map_value [VALUE_NOT_SET] [], KeyAt 0) /\
  add_map_value (PB_int32_value 7) = (PB_map_value [] [VALUE_NOT_SET], ValueAt 0) /\
  add_set_elem (PB_list_value [PB_int32_value 7]) = (PB_set_value [VALUE_NOT_SET], SetElemAt 0) /\
  add_list_elem VALUE_NOT_SET = (PB_list_value [VALUE_NOT_SET], ListElemAt 0).
Proof.
  split; [|split; [|split]].
  - apply (add_elem_switches_tag VALUE_NOT_SET). reflexivity.
  - apply (add_elem_switches_tag (PB_int32_value 7)). reflexivity.
  - apply (add_elem_switches_tag (PB_list_value [PB_int32_value 7])). reflexivity.
  - apply (add_elem_switches_tag VALUE_NOT_SET). reflexivity.
Defined.

(** ** SetColumnValue *)

Section VirtualTableFacts.
Context {DataType QLValue T : Type} (GetValue : T -> DataType -> QLValue).

Lemma find_column_from_absent (cols : list (@ColumnSchema DataType)) (name : string) (i : Z) :
  (forall c, c ∈ cols -> column_name c <> name) ->
  find_column_from cols name i = kColumnNotFound.
Proof.
  revert i. induction cols as [|c cols IH]; intros i Habs; [reflexivity|].
  cbn [find_column_from].
  destruct (String.eqb_spec (column_name c) name) as [E|_].
  - exfalso. apply (Habs c); [left|assumption].
  - apply IH. intros c' Hc'. apply Habs. now right.
Qed.

Lemma find_column_from_present (cols : list (@ColumnSchema DataType)) (name : string)
    (i : Z) (j : nat) (c : ColumnSchema) :
  cols !! j = Some c -> column_name c = name ->
  (forall j' c', (j' < j)%nat -> cols !! j' = Some c' -> column_name c' <> name) ->
  find_column_from cols name i = (i + Z.of_nat j)%Z.
Proof.
  revert i j. induction cols as [|c0 cols IH]; intros i j Hj Hname Hfirst.
  - discriminate.
  - cbn [find_column_from]. destruct j as [|j].
    + cbn in Hj. injection Hj as ->. rewrite Hname, String.eqb_refl. lia.
    + destruct (String.eqb_spec (column_name c0) name) as [E|_].
      * exfalso. apply (Hfirst 0%nat c0); [lia|reflexivity|assumption].
      * rewrite (IH (i + 1)%Z j); [lia|exact Hj|exact Hname|].
        intros j' c' Hlt Hc'. apply (Hfirst (S j') c'); [lia|exact Hc'].
Qed.
End VirtualTableFacts.

(** C9: when no column of the schema has the name, [SetColumnValue]
    returns NotFound and the row is as before; when the name is a column of
    the schema, at index i, it returns OK and the row differs from the one
    before only in cell i, which holds the value typed for that column. *)
Theorem SetColumnValue_contract {DataType QLValue T : Type}
    (GetValue : T -> DataType -> QLValue) (schema_ : Schema)
    (col_name : string) (value : T) (row : QLRow) :
  ((forall c, c ∈ columns schema_ -> column_name c <> col_name) ->
   SetColumnValue GetValue schema_ col_name value row = Returns (NotFound, row)) /\
  (forall (i : nat) (c : ColumnSchema),
     columns schema_ !! i = Some c -> column_name c = col_name ->
     (forall j c', (j < i)%nat -> columns schema_ !! j = Some c' ->
                   column_name c' <> col_name) ->
     (i < length (cells row))%nat ->
     exists row',
       SetColumnValue GetValue schema_ col_name value row = Returns (OK, row') /\
       cells row' !! i = Some (GetValue value (column_type c)) /\
       length (cells row') = length (cells row) /\
       (forall j, j <> i -> cells row' !! j = cells row !! j)).
Proof.
  split.
  - intros Habs. unfold SetColumnValue, find_column.
    now rewrite (find_column_from_absent _ _ _ Habs).
  - intros i c Hi Hname Hfirst Hrow.
    exists (mkRow (<[i := GetValue value (column_type c)]> (cells row))).
    split; [|split; [|split]].
    + unfold SetColumnValue, find_column.
      rewrite (find_column_from_present _ _ _ i c Hi Hname Hfirst).
      unfold kColumnNotFound.
      destruct (Z.eqb_spec (0 + Z.of_nat i) (-1)) as [E|_]; [lia|].
      unfold column, assign_column.
      replace (Z.to_nat (0 + Z.of_nat i)) with i by lia.
      rewrite Hi. cbn [outcome_bind].
      destruct (Nat.ltb_spec i (length (cells row))) as [_|E]; [reflexivity|lia].
    + cbn [cells]. now apply list_lookup_insert_eq.
    + cbn [cells]. apply length_insert.
    + intros j Hne. cbn [cells]. now apply list_lookup_insert_ne.
Qed.

Lemma SetColumnValue_contract_witness :
  SetColumnValue (fun (x : Z) (ty : bool) => (x, ty))
    (mkSchema [mkColumn "keyspace_name" true; mkColumn "table_name" false])
    "missing" 7%Z (mkRow [(0%Z, true); (0%Z, false)])
  = Returns (NotFound, mkRow [(0%Z, true); (0%Z, false)]) /\
  exists row',
    SetColumnValue (fun (x : Z) (ty : bool) => (x, ty))
      (mkSchema [mkColumn "keyspace_name" true; mkColumn "table_name" false])
      "table_name" 7%Z (mkRow [(0%Z, true); (0%Z, false)])
    = Returns (OK, row') /\
    cells row' !! 1%nat = Some (7%Z, false).
Proof.
  split.
  - apply (SetColumnValue_contract (fun (x : Z) (ty : bool) => (x, ty))
             (mkSchema [mkColumn "keyspace_name" true; mkColumn "table_name" false])
             "missing" 7%Z (mkRow [(0%Z, true); (0%Z, false)])).
    intros c Hc. cbn [columns] in Hc.
    apply elem_of_cons in Hc as [->|Hc]; [discriminate|].
    apply elem_of_cons in Hc as [->|Hc]; [discriminate|].
    inversion Hc.
  - destruct (SetColumnValue_contract (fun (x : Z) (ty : bool) => (x, ty))
             (mkSchema [mkColumn "keyspace_name" true; mkColumn "table_name" false])
             "table_name" 7%Z (mkRow [(0%Z, true); (0%Z, false)])) as [_ Hset].
    destruct (Hset 1%nat (mkColumn "table_name" false)) as (row' & Hr & Hcell & _).
    + reflexivity.
    + reflexivity.
    + intros j c' Hj Hc'. destruct j as [|j]; [|lia].
      cbn in Hc'. injection Hc' as <-. discriminate.
    + cbn. lia.
    + exists row'. split; assumption.
Defined.

(** ** Wire codec: reading back what was written *)

Lemma fits_length_signed (n : nat) :
  fits_length n = true -> fits_signed 32 (Z.of_nat n) = true.
Proof.
  unfold fits_length, fits_signed. intros H. apply Z.ltb_lt in H.
  change (2 ^ (32 - 1))%Z with (2 ^ 31)%Z.
  apply andb_true_intro. split; [apply Z.leb_le | apply Z.ltb_lt]; lia.
Qed.

Lemma fits_unsigned_mod (w x : Z) :
  fits_unsigned w x = true -> (x mod 2 ^ w)%Z = x.
Proof.
  unfold fits_unsigned. intros H. apply andb_prop in H as [H1 H2].
  apply Z.leb_le in H1. apply Z.ltb_lt in H2. apply Z.mod_small. lia.
Qed.

Lemma Load8_app (bs rest : list byte) : length bs = 1%nat -> Load8 (bs ++ rest) = be_decode bs.
Proof. intros H. unfold Load8. now rewrite take_app_length'. Qed.
Lemma Load16_app (bs rest : list byte) : length bs = 2%nat -> Load16 (bs ++ rest) = be_decode bs.
Proof. intros H. unfold Load16. now rewrite take_app_length'. Qed.
Lemma Load32_app (bs rest : list byte) : length bs = 4%nat -> Load32 (bs ++ rest) = be_decode bs.
Proof. intros H. unfold Load32. now rewrite take_app_length'. Qed.
Lemma Load64_app (bs rest : list byte) : length bs = 8%nat -> Load64 (bs ++ rest) = be_decode bs.
Proof. intros H. unfold Load64. now rewrite take_app_length'. Qed.

Lemma CQLDecodeNum_short (len : nat) (converter : Slice -> Z) (num_type : Z -> Z)
    (data : Slice) :
  (length data < len)%nat -> CQLDecodeNum len converter num_type data = Fails Corruption.
Proof.
  intros H. unfold CQLDecodeNum.
  destruct (Nat.ltb_spec (length data) len); [reflexivity|lia].
Qed.

Lemma CQLDecodeNum_enough (len : nat) (converter : Slice -> Z) (num_type : Z -> Z)
    (data : Slice) :
  (len <= length data)%nat ->
  CQLDecodeNum len converter num_type data
  = Returns (num_type (converter data), drop len data).
Proof.
  intros H. unfold CQLDecodeNum.
  destruct (Nat.ltb_spec (length data) len); [lia|reflexivity].
Qed.

Lemma CQLDecodeNum_app (len : nat) (converter : Slice -> Z) (num_type : Z -> Z)
    (bs rest : list byte) :
  length bs = len ->
  CQLDecodeNum len converter num_type (bs ++ rest)
  = Returns (num_type (converter (bs ++ rest)), rest).
Proof.
  intros H. rewrite CQLDecodeNum_enough by (rewrite length_app; lia).
  now rewrite drop_app_length'.
Qed.

Lemma CQLDecodeFloat_app (len : nat) (converter : Slice -> Z) (bs rest : list byte) :
  length bs = len ->
  CQLDecodeFloat len converter (bs ++ rest) = Returns (converter (bs ++ rest), rest).
Proof.
  intros H. unfold CQLDecodeFloat.
  destruct (Nat.ltb_spec (length (bs ++ rest)) len) as [E|_].
  - rewrite length_app in E. lia.
  - now rewrite drop_app_length'.
Qed.

Lemma CQLDecodeLength_encoded (n : Z) (rest : list byte) :
  fits_signed 32 n = true ->
  CQLDecodeLength (CQLEncodeLength n ++ rest) = Returns (n, rest).
Proof.
  intros Hn. unfold CQLDecodeLength, CQLEncodeLength.
  rewrite CQLDecodeNum_app by apply length_be_encode.
  rewrite Load32_app by apply length_be_encode.
  rewrite be_decode_encode. change (8 * Z.of_nat 4)%Z with 32%Z.
  rewrite static_cast_signed_mod by lia.
  now rewrite static_cast_signed_fits by (lia || assumption).
Qed.

Lemma CQLDecodeBytes_app (bs rest : list byte) :
  CQLDecodeBytes (Z.of_nat (length bs)) (bs ++ rest) = Returns (bs, rest).
Proof.
  unfold CQLDecodeBytes. rewrite length_app, Nat2Z.id.
  destruct (Z.ltb_spec (Z.of_nat (length bs + length rest)) (Z.of_nat (length bs)));
    [lia|].
  now rewrite take_app_length, drop_app_length.
Qed.

Lemma CQLDecodeBytes_short (len : Z) (data : Slice) :
  (Z.of_nat (length data) < len)%Z -> CQLDecodeBytes len data = Fails Corruption.
Proof.
  intros H. unfold CQLDecodeBytes.
  destruct (Z.ltb_spec (Z.of_nat (length data)) len); [reflexivity|lia].
Qed.

Lemma IsNull_true (v : YQLValuePB) : IsNull v = true -> v = VALUE_NOT_SET.
Proof. destruct v; try discriminate. reflexivity. Qed.

Section Elements.
Variable enc : YQLValuePB -> Outcome (list byte).
Variable dec : Decode YQLValuePB.
Variable ok : YQLValuePB -> bool.
Hypothesis enc_dec :
  forall e, ok e = true ->
    exists bs, enc e = Returns bs /\ forall rest, dec (bs ++ rest) = Returns (e, rest).

Lemma decode_elem_null (rest : list byte) :
  decode_elem dec (CQLEncodeLength (-1) ++ rest) = Returns (VALUE_NOT_SET, rest).
Proof.
  unfold decode_elem, decode_bind.
  rewrite CQLDecodeLength_encoded by reflexivity. reflexivity.
Qed.

Lemma decode_elem_bytes (bs rest : list byte) (e : YQLValuePB) (left_over : Slice) :
  fits_length (length bs) = true -> dec bs = Returns (e, left_over) ->
  decode_elem dec (CQLEncodeBytes bs ++ rest) = Returns (e, rest).
Proof.
  intros Hfit Hdec. unfold decode_elem, decode_bind, CQLEncodeBytes.
  rewrite <- app_assoc.
  rewrite CQLDecodeLength_encoded by now apply fits_length_signed.
  destruct (Z.ltb_spec (Z.of_nat (length bs)) 0) as [E|_]; [lia|].
  rewrite CQLDecodeBytes_app. unfold decode_lift. now rewrite Hdec.
Qed.

Lemma elem_round_trip (e : YQLValuePB) :
  elem_on_wire enc ok e = true ->
  exists bs, encode_elem enc e = Returns bs /\
             forall rest, decode_elem dec (bs ++ rest) = Returns (e, rest).
Proof.
  unfold elem_on_wire, encode_elem. intros H.
  destruct (IsNull e) eqn:En.
  - apply IsNull_true in En. subst e.
    exists (CQLEncodeLength (-1)). split; [reflexivity|]. apply decode_elem_null.
  - cbn [orb] in H. apply andb_prop in H as [Hok Hfit].
    destruct (enc_dec e Hok) as (bs & Henc & Hdec).
    rewrite Henc in Hfit |- *. cbn [outcome_bind].
    exists (CQLEncodeBytes bs). split; [reflexivity|].
    intros rest. apply (decode_elem_bytes bs rest e []); [assumption|].
    specialize (Hdec []). now rewrite app_nil_r in Hdec.
Qed.

Lemma elems_round_trip (es : list YQLValuePB) :
  forallb (elem_on_wire enc ok) es = true ->
  exists bs, encode_elems enc es = Returns bs /\
             forall rest, decode_elems dec (length es) (bs ++ rest) = Returns (es, rest).
Proof.
  induction es as [|e es IH]; intros H.
  - exists []. split; reflexivity.
  - cbn [forallb] in H. apply andb_prop in H as [He Hes].
    destruct (elem_round_trip e He) as (b & Hb & Hdb).
    destruct (IH Hes) as (bs & Hbs & Hdbs).
    exists (b ++ bs). split.
    + cbn [encode_elems]. rewrite Hb. cbn [outcome_bind]. now rewrite Hbs.
    + intros rest. cbn [length decode_elems]. unfold decode_bind.
      rewrite <- app_assoc, Hdb, Hdbs. reflexivity.
Qed.
End Elements.

Section Pairs.
Variables enck encv : YQLValuePB -> Outcome (list byte).
Variables deck decv : Decode YQLValuePB.
Variables okk okv : YQLValuePB -> bool.
Hypothesis enck_deck :
  forall e, okk e = true ->
    exists bs, enck e = Returns bs /\ forall rest, deck (bs ++ rest) = Returns (e, rest).
Hypothesis encv_decv :
  forall e, okv e = true ->
    exists bs, encv e = Returns bs /\ forall rest, decv (bs ++ rest) = Returns (e, rest).

Lemma pairs_round_trip (ks vs : list YQLValuePB) :
  length ks = length vs ->
  forallb (elem_on_wire enck okk) ks = true ->
  forallb (elem_on_wire encv okv) vs = true ->
  exists bs, encode_pairs enck encv ks vs = Returns bs /\
             forall rest,
               decode_pairs deck decv (length ks) (bs ++ rest) = Returns ((ks, vs), rest).
Proof.
  revert vs. induction ks as [|k ks IH]; intros vs Hlen Hks Hvs.
  - destruct vs; [|discriminate]. exists []. split; reflexivity.
  - destruct vs as [|x vs]; [discriminate|].
    cbn [forallb] in Hks, Hvs.
    apply andb_prop in Hks as [Hk Hks]. apply andb_prop in Hvs as [Hx Hvs].
    destruct (elem_round_trip enck deck okk enck_deck k Hk) as (bk & Hbk & Hdk).
    destruct (elem_round_trip encv decv okv encv_decv x Hx) as (bx & Hbx & Hdx).
    destruct (IH vs ltac:(cbn in Hlen; lia) Hks Hvs) as (bs & Hbs & Hdbs).
    exists (bk ++ bx ++ bs). split.
    + cbn [encode_pairs]. rewrite Hbk. cbn [outcome_bind]. rewrite Hbx.
      cbn [outcome_bind]. now rewrite Hbs.
    + intros rest. cbn [length decode_pairs]. unfold decode_bind.
      rewrite <- !app_assoc, Hdk, Hdx, Hdbs. reflexivity.
Qed.
End Pairs.

Lemma signed_num_round_trip (len : nat) (converter : Slice -> Z)
    (setter : Z -> YQLValuePB -> YQLValuePB) (x : Z) (this : YQLValuePB) (rest : list byte) :
  (0 < len)%nat ->
  (forall bs rest, length bs = len -> converter (bs ++ rest) = be_decode bs) ->
  fits_signed (8 * Z.of_nat len) x = true ->
  CQLDeserializeNum len converter (static_cast_signed (8 * Z.of_nat len)) setter this
    (be_encode len x ++ rest)
  = Returns (setter x this, rest).
Proof.
  intros Hlen Hconv Hx. unfold CQLDeserializeNum, decode_bind.
  rewrite CQLDecodeNum_app by apply length_be_encode.
  rewrite Hconv by apply length_be_encode.
  rewrite be_decode_encode, static_cast_signed_mod by lia.
  now rewrite static_cast_signed_fits by (lia || assumption).
Qed.

Lemma float_round_trip (len : nat) (converter : Slice -> Z)
    (setter : Z -> YQLValuePB -> YQLValuePB) (x : Z) (this : YQLValuePB) (rest : list byte) :
  (forall bs rest, length bs = len -> converter (bs ++ rest) = be_decode bs) ->
  fits_unsigned (8 * Z.of_nat len) x = true ->
  CQLDeserializeFloat len converter setter this (be_encode len x ++ rest)
  = Returns (setter x this, rest).
Proof.
  intros Hconv Hx. unfold CQLDeserializeFloat, decode_bind.
  rewrite CQLDecodeFloat_app by apply length_be_encode.
  rewrite Hconv by apply length_be_encode.
  now rewrite be_decode_encode, fits_unsigned_mod.
Qed.

Lemma bool_round_trip (client : YQLClient) (b : bool) (this : YQLValuePB)
    (rest : list byte) :
  Deserialize BOOL client this (be_encode 1 (if b then 1 else 0) ++ rest)
  = Returns (PB_bool_value b, rest).
Proof. destruct b; reflexivity. Qed.

Lemma length_prefixed_round_trip (s rest : list byte) (this : YQLValuePB)
    (payload : Z -> Decode YQLValuePB) :
  fits_length (length s) = true ->
  decode_nullable this payload (CQLEncodeBytes s ++ rest)
  = payload (Z.of_nat (length s)) (s ++ rest).
Proof.
  intros Hs. unfold decode_nullable, decode_bind, CQLEncodeBytes.
  rewrite <- app_assoc, CQLDecodeLength_encoded by now apply fits_length_signed.
  destruct (Z.ltb_spec (Z.of_nat (length s)) 0); [lia|reflexivity].
Qed.

Lemma null_prefix_round_trip (rest : list byte) (this : YQLValuePB)
    (payload : Z -> Decode YQLValuePB) :
  decode_nullable this payload (CQLEncodeLength (-1) ++ rest)
  = Returns (VALUE_NOT_SET, rest).
Proof.
  unfold decode_nullable, decode_bind.
  rewrite CQLDecodeLength_encoded by reflexivity. reflexivity.
Qed.

Lemma count_prefix_round_trip (n : nat) (bs rest : list byte) (this : YQLValuePB)
    (payload : Z -> Decode YQLValuePB) :
  fits_length n = true ->
  decode_nullable this payload ((CQLEncodeLength (Z.of_nat n) ++ bs) ++ rest)
  = payload (Z.of_nat n) (bs ++ rest).
Proof.
  intros Hn. unfold decode_nullable, decode_bind.
  rewrite <- app_assoc, CQLDecodeLength_encoded by now apply fits_length_signed.
  destruct (Z.ltb_spec (Z.of_nat n) 0); [lia|reflexivity].
Qed.

Lemma uuid_bytes_round_trip (s : list byte) :
  length s = kUuidSize ->
  Uuid_FromBytes s = (OK, be_decode s) /\ Uuid_ToBytes (be_decode s) = (OK, s).
Proof.
  intros Hs. unfold Uuid_FromBytes, Uuid_ToBytes. rewrite Hs, Nat.eqb_refl.
  split; [reflexivity|]. f_equal. rewrite <- Hs. apply be_encode_decode.
Qed.

Lemma inet_bytes_round_trip (s : list byte) :
  (length s =? 4)%nat || (length s =? 16)%nat = true ->
  exists addr, Inet_FromBytes s = (OK, addr) /\ Inet_ToBytes addr = (OK, s) /\
               fits_length (length s) = true.
Proof.
  intros Hs. unfold Inet_FromBytes.
  destruct (Nat.eqb_spec (length s) 4) as [E4|_].
  - exists (InetV4 (be_decode s)). split; [reflexivity|]. split.
    + cbn [Inet_ToBytes]. f_equal. rewrite <- E4. apply be_encode_decode.
    + now rewrite E4.
  - cbn [orb] in Hs. rewrite Hs. apply Nat.eqb_eq in Hs.
    exists (InetV6 (be_decode s)). split; [reflexivity|]. split.
    + cbn [Inet_ToBytes]. f_equal. rewrite <- Hs. apply be_encode_decode.
    + now rewrite Hs.
Qed.

Lemma elem_codec_of_round_trip (yql_type : YQLType) (client : YQLClient) :
  (forall v, on_wire yql_type client v = true -> value_round_trips yql_type client v) ->
  forall e, on_wire yql_type client e = true ->
    exists bs, SerializeValue yql_type client e = Returns bs /\
               forall rest,
                 Deserialize yql_type client VALUE_NOT_SET (bs ++ rest) = Returns (e, rest).
Proof.
  intros IH e He. destruct (IH e He) as (bs & Hbs & Hdec).
  exists bs. split; [assumption|]. intros rest. apply Hdec.
Qed.

Lemma on_wire_value_round_trips (yql_type : YQLType) (client : YQLClient) :
  forall v, on_wire yql_type client v = true -> value_round_trips yql_type client v.
Proof.
  induction yql_type as [ | | | | | | | | | | | | | | kt IHk vt IHv | et IHe | et IHe ];
    intros v Hw; destruct v; try discriminate Hw; cbn [on_wire] in Hw.
  all: unfold value_round_trips.
  - (* INT8 *)
    exists (be_encode 1 x). split.
    + cbn [SerializeValue]. getter_on_own_tag.
      now rewrite static_cast_signed_fits by (lia || assumption).
    + intros this rest. cbn [Deserialize].
      apply (signed_num_round_trip 1 Load8 set_int8_value);
        [lia | apply Load8_app | assumption].
  - exists (be_encode 2 x). split.
    + cbn [SerializeValue]. getter_on_own_tag.
      now rewrite static_cast_signed_fits by (lia || assumption).
    + intros this rest. cbn [Deserialize].
      apply (signed_num_round_trip 2 Load16 set_int16_value);
        [lia | apply Load16_app | assumption].
  - exists (be_encode 4 x). split.
    + cbn [SerializeValue]. getter_on_own_tag.
      now rewrite static_cast_signed_fits by (lia || assumption).
    + intros this rest. cbn [Deserialize].
      apply (signed_num_round_trip 4 Load32 set_int32_value);
        [lia | apply Load32_app | assumption].
  - exists (be_encode 8 x). split.
    + cbn [SerializeValue]. getter_on_own_tag.
      now rewrite static_cast_signed_fits by (lia || assumption).
    + intros this rest. cbn [Deserialize].
      apply (signed_num_round_trip 8 Load64 set_int64_value);
        [lia | apply Load64_app | assumption].
  - (* FLOAT *)
    exists (be_encode 4 bits). split.
    + cbn [SerializeValue]. getter_on_own_tag. reflexivity.
    + intros this rest. cbn [Deserialize].
      apply (float_round_trip 4 Load32 set_float_value); [apply Load32_app | assumption].
  - exists (be_encode 8 bits). split.
    + cbn [SerializeValue]. getter_on_own_tag. reflexivity.
    + intros this rest. cbn [Deserialize].
      apply (float_round_trip 8 Load64 set_double_value); [apply Load64_app | assumption].
  - (* DECIMAL *)
    exists (CQLEncodeLength (-1)). split; [reflexivity|].
    intros this rest. cbn [Deserialize]. apply null_prefix_round_trip.
  - exists (CQLEncodeBytes s). split.
    + cbn [SerializeValue]. getter_on_own_tag. reflexivity.
    + intros this rest. cbn [Deserialize].
      rewrite length_prefixed_round_trip by assumption.
      unfold decode_bind. now rewrite CQLDecodeBytes_app.
  - (* BOOL *)
    exists (be_encode 1 (if b then 1 else 0)). split.
    + cbn [SerializeValue]. getter_on_own_tag. reflexivity.
    + intros this rest. apply bool_round_trip.
  - (* STRING *)
    exists (CQLEncodeLength (-1)). split; [reflexivity|].
    intros this rest. cbn [Deserialize]. apply null_prefix_round_trip.
  - exists (CQLEncodeBytes s). split.
    + cbn [SerializeValue]. getter_on_own_tag. reflexivity.
    + intros this rest. cbn [Deserialize].
      rewrite length_prefixed_round_trip by assumption.
      unfold decode_bind. now rewrite CQLDecodeBytes_app.
  - (* TIMESTAMP *)
    exists (be_encode 8 x). split.
    + cbn [SerializeValue]. getter_on_own_tag. reflexivity.
    + intros this rest. cbn [Deserialize].
      apply (signed_num_round_trip 8 Load64
               (fun x => set_timestamp_value (Timestamp_of_int64 x)));
        [lia | apply Load64_app | assumption].
  - (* BINARY *)
    exists (CQLEncodeLength (-1)). split; [reflexivity|].
    intros this rest. cbn [Deserialize]. apply null_prefix_round_trip.
  - exists (CQLEncodeBytes s). split.
    + cbn [SerializeValue]. getter_on_own_tag. reflexivity.
    + intros this rest. cbn [Deserialize].
      rewrite length_prefixed_round_trip by assumption.
      unfold decode_bind. now rewrite CQLDecodeBytes_app.
  - (* INET *)
    exists (CQLEncodeLength (-1)). split; [reflexivity|].
    intros this rest. cbn [Deserialize]. apply null_prefix_round_trip.
  - destruct (inet_bytes_round_trip s Hw) as (addr & Hfrom & Hto & Hfit).
    exists (CQLEncodeBytes s). split.
    + cbn [SerializeValue]. unfold encode_nullable, inetaddress_value, CHECK_OK, CHECK.
      cbn [IsNull has_field value_case InternalType_eqb Field.inetaddress_value].
      rewrite Hfrom. cbn [Status_ok outcome_bind]. now rewrite Hto.
    + intros this rest. cbn [Deserialize].
      rewrite length_prefixed_round_trip by assumption.
      unfold decode_bind. rewrite CQLDecodeBytes_app, Hfrom.
      unfold corrupt_unless, decode_lift, set_inetaddress_value.
      cbn [Status_ok]. now rewrite Hto.
  - (* UUID *)
    apply Nat.eqb_eq in Hw. destruct (uuid_bytes_round_trip s Hw) as [Hfrom Hto].
    exists s. split.
    + cbn [SerializeValue]. unfold uuid_value, CHECK_OK, CHECK.
      cbn [has_field value_case InternalType_eqb Field.uuid_value].
      rewrite Hfrom. cbn [Status_ok outcome_bind]. now rewrite Hto.
    + intros this rest. cbn [Deserialize]. unfold decode_bind.
      rewrite <- Hw at 1. rewrite CQLDecodeBytes_app, Hfrom.
      unfold corrupt_unless, decode_lift, set_uuid_value.
      cbn [Status_ok]. now rewrite Hto.
  - (* TIMEUUID *)
    apply andb_prop in Hw as [Hlen Htime]. apply Nat.eqb_eq in Hlen.
    destruct (uuid_bytes_round_trip s Hlen) as [Hfrom Hto].
    destruct (Uuid_IsTimeUuid (be_decode s)) eqn:Et; try discriminate Htime.
    exists s. split.
    + cbn [SerializeValue]. unfold timeuuid_value, CHECK_OK, CHECK.
      cbn [has_field value_case InternalType_eqb Field.timeuuid_value].
      rewrite Hfrom. cbn [Status_ok]. rewrite Et. cbn [Status_ok outcome_bind].
      now rewrite Hto.
    + intros this rest. cbn [Deserialize]. unfold decode_bind.
      rewrite <- Hlen at 1. rewrite CQLDecodeBytes_app, Hfrom.
      unfold corrupt_unless, decode_lift, set_timeuuid_value, CHECK_OK, CHECK.
      cbn [Status_ok]. rewrite Et. cbn [Status_ok]. now rewrite Hto.
  - (* MAP *)
    exists (CQLEncodeLength (-1)). split; [reflexivity|].
    intros this rest. cbn [Deserialize]. apply null_prefix_round_trip.
  - apply andb_prop in Hw as [Hw Hvs]. apply andb_prop in Hw as [Hw Hks].
    apply andb_prop in Hw as [Hfit Hlen]. apply Nat.eqb_eq in Hlen.
    destruct (pairs_round_trip _ _ _ _ _ _
                (elem_codec_of_round_trip kt client IHk)
                (elem_codec_of_round_trip vt client IHv) keys values Hlen Hks Hvs)
      as (bs & Hbs & Hdec).
    exists (CQLEncodeLength (Z.of_nat (length keys)) ++ bs). split.
    + cbn [SerializeValue]. getter_on_own_tag. now rewrite Hbs.
    + intros this rest. cbn [Deserialize].
      rewrite count_prefix_round_trip by assumption.
      unfold decode_bind. rewrite Nat2Z.id.
      now rewrite (Hdec rest).
  - (* SET *)
    exists (CQLEncodeLength (-1)). split; [reflexivity|].
    intros this rest. cbn [Deserialize]. apply null_prefix_round_trip.
  - apply andb_prop in Hw as [Hfit Hes].
    destruct (elems_round_trip _ _ _ (elem_codec_of_round_trip et client IHe) elems Hes)
      as (bs & Hbs & Hdec).
    exists (CQLEncodeLength (Z.of_nat (length elems)) ++ bs). split.
    + cbn [SerializeValue]. getter_on_own_tag. now rewrite Hbs.
    + intros this rest. cbn [Deserialize].
      rewrite count_prefix_round_trip by assumption.
      unfold decode_bind. rewrite Nat2Z.id. now rewrite (Hdec rest).
  - (* LIST *)
    exists (CQLEncodeLength (-1)). split; [reflexivity|].
    intros this rest. cbn [Deserialize]. apply null_prefix_round_trip.
  - apply andb_prop in Hw as [Hfit Hes].
    destruct (elems_round_trip _ _ _ (elem_codec_of_round_trip et client IHe) elems Hes)
      as (bs & Hbs & Hdec).
    exists (CQLEncodeLength (Z.of_nat (length elems)) ++ bs). split.
    + cbn [SerializeValue]. getter_on_own_tag. now rewrite Hbs.
    + intros this rest. cbn [Deserialize].
      rewrite count_prefix_round_trip by assumption.
      unfold decode_bind. rewrite Nat2Z.id. now rewrite (Hdec rest).
Qed.

Lemma Serialize_of_value (yql_type : YQLType) (client : YQLClient) (v : YQLValuePB)
    (bs : list byte) :
  SerializeValue yql_type client v = Returns bs ->
  forall buffer, Serialize yql_type client v buffer = Returns (buffer ++ bs).
Proof. intros H buffer. unfold Serialize. now rewrite H. Qed.

(** On the layout of spec section 4.3: for every record that has a wire
    image at a logical type, [Deserialize] reads the bytes [Serialize]
    appended back as the same record and leaves the cursor just past
    them. *)
Theorem wire_round_trip (yql_type : YQLType) (client : YQLClient) (v : YQLValuePB) :
  on_wire yql_type client v = true -> round_trips yql_type client v.
Proof.
  intros Hw. destruct (on_wire_value_round_trips yql_type client v Hw) as (bs & Hs & Hd).
  exists bs. split; [now apply Serialize_of_value | exact Hd].
Qed.

Lemma wire_round_trip_witness : round_trips sample_type 0 sample_value.
Proof. apply (wire_round_trip sample_type 0 sample_value). vm_compute. reflexivity. Defined.

(** C8: int32 42 is written as 00 00 00 2A, the text "ab" as
    00 00 00 02 61 62 and a null text as FF FF FF FF; each of the three
    byte strings is read back as the record it came from. *)
Theorem end_to_end_scenario (client : YQLClient) (buffer : faststring)
    (this : YQLValuePB) (rest : Slice) :
  Serialize INT32 client (PB_int32_value 42) buffer
    = Returns (buffer ++ [x00; x00; x00; x2a]) /\
  Serialize STRING client (PB_string_value [x61; x62]) buffer
    = Returns (buffer ++ [x00; x00; x00; x02; x61; x62]) /\
  Serialize STRING client VALUE_NOT_SET buffer
    = Returns (buffer ++ [xff; xff; xff; xff]) /\
  Deserialize INT32 client this ([x00; x00; x00; x2a] ++ rest)
    = Returns (PB_int32_value 42, rest) /\
  Deserialize STRING client this ([x00; x00; x00; x02; x61; x62] ++ rest)
    = Returns (PB_string_value [x61; x62], rest) /\
  Deserialize STRING client this ([xff; xff; xff; xff] ++ rest)
    = Returns (VALUE_NOT_SET, rest) /\
  IsNull VALUE_NOT_SET = true.
Proof.
  do 4 (split; [reflexivity|]). split; [|split; reflexivity].
  change ([x00; x00; x00; x02; x61; x62] ++ rest)
    with (CQLEncodeBytes [x61; x62] ++ rest).
  cbn [Deserialize]. rewrite length_prefixed_round_trip by reflexivity.
  unfold decode_bind. now rewrite CQLDecodeBytes_app.
Qed.

(** ** Wire codec: truncated input *)

Lemma decode_nullable_declared (n : Z) (data rest : Slice) (this : YQLValuePB)
    (payload : Z -> Decode YQLValuePB) :
  CQLDecodeLength data = Returns (n, rest) -> (0 <= n)%Z ->
  decode_nullable this payload data = payload n rest.
Proof.
  intros Hlen Hn. unfold decode_nullable, decode_bind. rewrite Hlen.
  destruct (Z.ltb_spec n 0); [lia|reflexivity].
Qed.

Lemma decode_nullable_short (data : Slice) (this : YQLValuePB)
    (payload : Z -> Decode YQLValuePB) :
  (length data < 4)%nat -> decode_nullable this payload data = Fails Corruption.
Proof.
  intros H. unfold decode_nullable, decode_bind, CQLDecodeLength.
  now rewrite CQLDecodeNum_short.
Qed.

Lemma decode_elem_short (dec : Decode YQLValuePB) (n : Z) (data rest : Slice) :
  CQLDecodeLength data = Returns (n, rest) -> (0 <= n)%Z ->
  (Z.of_nat (length rest) < n)%Z ->
  decode_elem dec data = Fails Corruption.
Proof.
  intros Hlen Hn Hshort. unfold decode_elem, decode_bind. rewrite Hlen.
  destruct (Z.ltb_spec n 0); [lia|].
  now rewrite CQLDecodeBytes_short.
Qed.

Lemma decode_elems_first_short (dec : Decode YQLValuePB) (c n : Z) (data rest : Slice) :
  (0 < c)%Z -> CQLDecodeLength data = Returns (n, rest) -> (0 <= n)%Z ->
  (Z.of_nat (length rest) < n)%Z ->
  decode_elems dec (Z.to_nat c) data = Fails Corruption.
Proof.
  intros Hc Hlen Hn Hshort.
  destruct (Z.to_nat c) as [|k] eqn:E; [lia|].
  cbn [decode_elems]. unfold decode_bind.
  now rewrite (decode_elem_short dec n data rest).
Qed.

Lemma decode_pairs_first_short (deck decv : Decode YQLValuePB) (c n : Z)
    (data rest : Slice) :
  (0 < c)%Z -> CQLDecodeLength data = Returns (n, rest) -> (0 <= n)%Z ->
  (Z.of_nat (length rest) < n)%Z ->
  decode_pairs deck decv (Z.to_nat c) data = Fails Corruption.
Proof.
  intros Hc Hlen Hn Hshort.
  destruct (Z.to_nat c) as [|k] eqn:E; [lia|].
  cbn [decode_pairs]. unfold decode_bind.
  now rewrite (decode_elem_short deck n data rest).
Qed.

Lemma CQLDeserializeNum_short (len : nat) (converter : Slice -> Z) (num_type : Z -> Z)
    (setter : Z -> YQLValuePB -> YQLValuePB) (this : YQLValuePB) (data : Slice) :
  (length data < len)%nat ->
  CQLDeserializeNum len converter num_type setter this data = Fails Corruption.
Proof.
  intros H. unfold CQLDeserializeNum, decode_bind. now rewrite CQLDecodeNum_short.
Qed.

Lemma CQLDeserializeNum_enough (len : nat) (converter : Slice -> Z) (num_type : Z -> Z)
    (setter : Z -> YQLValuePB -> YQLValuePB) (this : YQLValuePB) (data : Slice) :
  (len <= length data)%nat ->
  CQLDeserializeNum len converter num_type setter this data
  = Returns (setter (num_type (converter data)) this, drop len data).
Proof.
  intros H. unfold CQLDeserializeNum, decode_bind. now rewrite CQLDecodeNum_enough.
Qed.

Lemma Deserialize_fixed_short (yql_type : YQLType) (client : YQLClient)
    (this : YQLValuePB) (data : Slice) (w : nat) :
  fixed_width yql_type = Some w -> (length data < w)%nat ->
  Deserialize yql_type client this data = Fails Corruption.
Proof.
  intros Hw Hshort.
  destruct yql_type; try discriminate Hw; injection Hw as <-; cbn [Deserialize];
    try (now apply CQLDeserializeNum_short);
    unfold CQLDeserializeFloat, CQLDecodeFloat, decode_bind;
    try (destruct (Nat.ltb_spec (length data) 4); [reflexivity|lia]);
    try (destruct (Nat.ltb_spec (length data) 8); [reflexivity|lia]);
    rewrite CQLDecodeBytes_short; try reflexivity; unfold kUuidSize; lia.
Qed.

Lemma Deserialize_prefix_short (yql_type : YQLType) (client : YQLClient)
    (this : YQLValuePB) (data : Slice) :
  fixed_width yql_type = None -> (length data < 4)%nat ->
  Deserialize yql_type client this data = Fails Corruption.
Proof.
  intros Hw Hshort.
  destruct yql_type; try discriminate Hw; cbn [Deserialize];
    now apply decode_nullable_short.
Qed.

Lemma Deserialize_bytes_short (yql_type : YQLType) (client : YQLClient)
    (this : YQLValuePB) (n : Z) (data rest : Slice) :
  length_prefixed_bytes yql_type = true ->
  CQLDecodeLength data = Returns (n, rest) -> (0 <= n)%Z ->
  (Z.of_nat (length rest) < n)%Z ->
  Deserialize yql_type client this data = Fails Corruption.
Proof.
  intros Ht Hlen Hn Hshort.
  destruct yql_type; try discriminate Ht; cbn [Deserialize];
    rewrite (decode_nullable_declared n data rest) by assumption;
    unfold decode_bind; now rewrite CQLDecodeBytes_short.
Qed.

Lemma Deserialize_element_short (yql_type : YQLType) (client : YQLClient)
    (this : YQLValuePB) (c n : Z) (data elems rest : Slice) :
  is_collection yql_type = true ->
  CQLDecodeLength data = Returns (c, elems) -> (0 < c)%Z ->
  CQLDecodeLength elems = Returns (n, rest) -> (0 <= n)%Z ->
  (Z.of_nat (length rest) < n)%Z ->
  Deserialize yql_type client this data = Fails Corruption.
Proof.
  intros Ht Hcount Hc Hlen Hn Hshort.
  destruct yql_type; try discriminate Ht; cbn [Deserialize];
    rewrite (decode_nullable_declared c data elems) by (lia || assumption);
    unfold decode_bind.
  - now rewrite (decode_pairs_first_short _ _ c n elems rest).
  - now rewrite (decode_elems_first_short _ c n elems rest).
  - now rewrite (decode_elems_first_short _ c n elems rest).
Qed.

(** ** Wire codec: decoding ends in a typed result *)

Lemma typed_ret {A} (a : A) : typed_decoder (decode_ret a).
Proof. intros data. exact I. Qed.

Lemma typed_fail {A} : typed_decoder (@decode_fail A Corruption).
Proof. intros data. reflexivity. Qed.

Lemma typed_bind {A B} (m : Decode A) (k : A -> Decode B) :
  typed_decoder m -> (forall a, typed_decoder (k a)) -> typed_decoder (decode_bind m k).
Proof.
  intros Hm Hk data. unfold decode_bind. specialize (Hm data).
  destruct (m data) as [[a data']|s|]; [apply Hk|exact Hm|exact Hm].
Qed.

Lemma typed_CQLDecodeNum (len : nat) (converter : Slice -> Z) (num_type : Z -> Z) :
  typed_decoder (CQLDecodeNum len converter num_type).
Proof.
  intros data. unfold CQLDecodeNum.
  destruct (length data <? len)%nat; [reflexivity|exact I].
Qed.

Lemma typed_CQLDecodeFloat (len : nat) (converter : Slice -> Z) :
  typed_decoder (CQLDecodeFloat len converter).
Proof.
  intros data. unfold CQLDecodeFloat.
  destruct (length data <? len)%nat; [reflexivity|exact I].
Qed.

Lemma typed_CQLDecodeBytes (len : Z) : typed_decoder (CQLDecodeBytes len).
Proof.
  intros data. unfold CQLDecodeBytes.
  destruct (Z.of_nat (length data) <? len)%Z; [reflexivity|exact I].
Qed.

Lemma typed_decode_nullable (this : YQLValuePB) (payload : Z -> Decode YQLValuePB) :
  (forall len, typed_decoder (payload len)) -> typed_decoder (decode_nullable this payload).
Proof.
  intros Hp. unfold decode_nullable. apply typed_bind; [apply typed_CQLDecodeNum|].
  intros len. destruct (len <? 0)%Z; [apply typed_ret|apply Hp].
Qed.

Lemma typed_decode_elem (dec : Decode YQLValuePB) :
  typed_decoder dec -> typed_decoder (decode_elem dec).
Proof.
  intros Hd. unfold decode_elem. apply typed_bind; [apply typed_CQLDecodeNum|].
  intros len. destruct (len <? 0)%Z; [apply typed_ret|].
  apply typed_bind; [apply typed_CQLDecodeBytes|].
  intros bytes data. unfold decode_lift. specialize (Hd bytes).
  destruct (dec bytes) as [[e left_over]|s|]; [exact I|exact Hd|exact Hd].
Qed.

Lemma typed_decode_elems (dec : Decode YQLValuePB) (n : nat) :
  typed_decoder dec -> typed_decoder (decode_elems dec n).
Proof.
  intros Hd. induction n as [|n IH]; cbn [decode_elems]; [apply typed_ret|].
  apply typed_bind; [now apply typed_decode_elem|]. intros e.
  apply typed_bind; [exact IH|]. intros es. apply typed_ret.
Qed.

Lemma typed_decode_pairs (deck decv : Decode YQLValuePB) (n : nat) :
  typed_decoder deck -> typed_decoder decv -> typed_decoder (decode_pairs deck decv n).
Proof.
  intros Hk Hv. induction n as [|n IH]; cbn [decode_pairs]; [apply typed_ret|].
  apply typed_bind; [now apply typed_decode_elem|]. intros k.
  apply typed_bind; [now apply typed_decode_elem|]. intros x.
  apply typed_bind; [exact IH|]. intros kvs. apply typed_ret.
Qed.

Lemma typed_corrupt_unless {A} (st : Status) (rest : Decode A) :
  typed_decoder rest -> typed_decoder (corrupt_unless st rest).
Proof.
  intros Hr. unfold corrupt_unless. destruct (Status_ok st); [exact Hr|apply typed_fail].
Qed.

Lemma typed_bytes_payload (setter : list byte -> YQLValuePB -> YQLValuePB)
    (this : YQLValuePB) (len : Z) :
  typed_decoder (bytes <~ CQLDecodeBytes len ;; decode_ret (setter bytes this)).
Proof.
  apply typed_bind; [apply typed_CQLDecodeBytes|]. intros bytes. apply typed_ret.
Qed.

Lemma typed_Deserialize (yql_type : YQLType) (client : YQLClient) :
  forall this, typed_decoder (Deserialize yql_type client this).
Proof.
  induction yql_type as [ | | | | | | | | | | | | | | kt IHk vt IHv | et IHe | et IHe ];
    intros this; cbn [Deserialize];
    try (apply typed_bind; [apply typed_CQLDecodeNum|intros; apply typed_ret]);
    try (apply typed_bind; [apply typed_CQLDecodeFloat|intros; apply typed_ret]);
    try (apply typed_decode_nullable; intros len; apply typed_bytes_payload).
  - (* INET *)
    apply typed_decode_nullable. intros len.
    apply typed_bind; [apply typed_CQLDecodeBytes|]. intros bytes.
    destruct (Inet_FromBytes bytes) as [st addr]. apply typed_corrupt_unless.
    intros data. destruct addr; exact I.
  - (* UUID *)
    apply typed_bind; [apply typed_CQLDecodeBytes|]. intros bytes.
    destruct (Uuid_FromBytes bytes) as [st uuid]. apply typed_corrupt_unless.
    intros data. exact I.
  - (* TIMEUUID *)
    apply typed_bind; [apply typed_CQLDecodeBytes|]. intros bytes.
    destruct (Uuid_FromBytes bytes) as [st uuid]. apply typed_corrupt_unless.
    unfold corrupt_unless, decode_lift, set_timeuuid_value, CHECK_OK, CHECK.
    intros data.
    destruct (Uuid_IsTimeUuid uuid); cbn [Status_ok]; first [exact I | reflexivity].
  - (* MAP *)
    apply typed_decode_nullable. intros count.
    apply typed_bind; [apply typed_decode_pairs; [apply IHk|apply IHv]|].
    intros kvs. apply typed_ret.
  - apply typed_decode_nullable. intros count.
    apply typed_bind; [apply typed_decode_elems; apply IHe|]. intros es. apply typed_ret.
  - apply typed_decode_nullable. intros count.
    apply typed_bind; [apply typed_decode_elems; apply IHe|]. intros es. apply typed_ret.
Qed.

(** ** Wire codec: input cut short *)

Lemma cut_ret {A} (a : A) : cut_is_corruption (decode_ret a).
Proof.
  intros data a' rest H. injection H as <- <-. exists []. split; [reflexivity|].
  split; [reflexivity|]. intros kept lost E Hlost.
  symmetry in E. apply app_eq_nil in E as [_ ->]. contradiction.
Qed.

Lemma cut_fail {A} (s : Status) : cut_is_corruption (@decode_fail A s).
Proof. intros data a rest H. discriminate H. Qed.

Lemma cut_lift {A} (o : Outcome A) : cut_is_corruption (decode_lift o).
Proof.
  intros data a rest H. unfold decode_lift in *.
  destruct o as [a'| |]; try discriminate H. injection H as <- <-.
  exists []. split; [reflexivity|]. split; [reflexivity|].
  intros kept lost E Hlost. symmetry in E. apply app_eq_nil in E as [_ ->].
  contradiction.
Qed.

Lemma cut_bind {A B} (m : Decode A) (k : A -> Decode B) :
  cut_is_corruption m -> (forall a, cut_is_corruption (k a)) ->
  cut_is_corruption (decode_bind m k).
Proof.
  intros Hm Hk data b rest H. unfold decode_bind in H.
  destruct (m data) as [[a data1]| |] eqn:Em; try discriminate H.
  destruct (Hm data a data1 Em) as (u1 & -> & Hm1 & Hm2).
  destruct (Hk a data1 b rest H) as (u2 & -> & Hk1 & Hk2).
  exists (u1 ++ u2). split; [now rewrite app_assoc|]. split.
  - intros tail. unfold decode_bind. rewrite <- app_assoc, Hm1. apply Hk1.
  - intros kept lost E Hlost. unfold decode_bind.
    apply app_eq_app in E as [l [[E1 E2]|[E1 E2]]].
    + destruct l as [|x l].
      * rewrite app_nil_r in E1. subst u1. cbn in E2. subst u2.
        assert (kept = kept ++ []) as Ek by now rewrite app_nil_r.
        rewrite Ek at 1. rewrite Hm1. apply (Hk2 [] lost); [reflexivity|assumption].
      * now rewrite (Hm2 kept (x :: l)).
    + subst kept. rewrite Hm1. apply (Hk2 l lost); assumption.
Qed.

Lemma cut_CQLDecodeNum (len : nat) (converter : Slice -> Z) (num_type : Z -> Z) :
  (forall bs tail, length bs = len -> converter (bs ++ tail) = be_decode bs) ->
  cut_is_corruption (CQLDecodeNum len converter num_type).
Proof.
  intros Hconv data x rest H. unfold CQLDecodeNum in H.
  destruct (Nat.ltb_spec (length data) len) as [|Hlen]; [discriminate H|].
  injection H as <- <-.
  assert (length (take len data) = len) as Hused by (rewrite length_take; lia).
  exists (take len data). split; [now rewrite take_drop|]. split.
  - intros tail. rewrite CQLDecodeNum_app by assumption.
    rewrite Hconv by assumption.
    rewrite <- (take_drop len data) at 2. now rewrite Hconv by assumption.
  - intros kept lost E Hlost. apply CQLDecodeNum_short.
    rewrite <- Hused, E, length_app. destruct lost; [contradiction|cbn; lia].
Qed.

Lemma cut_CQLDecodeFloat (len : nat) (converter : Slice -> Z) :
  (forall bs tail, length bs = len -> converter (bs ++ tail) = be_decode bs) ->
  cut_is_corruption (CQLDecodeFloat len converter).
Proof.
  intros Hconv data x rest H. unfold CQLDecodeFloat in H.
  destruct (Nat.ltb_spec (length data) len) as [|Hlen]; [discriminate H|].
  injection H as <- <-.
  assert (length (take len data) = len) as Hused by (rewrite length_take; lia).
  exists (take len data). split; [now rewrite take_drop|]. split.
  - intros tail. rewrite CQLDecodeFloat_app by assumption.
    rewrite Hconv by assumption.
    rewrite <- (take_drop len data) at 2. now rewrite Hconv by assumption.
  - intros kept lost E Hlost. unfold CQLDecodeFloat.
    destruct (Nat.ltb_spec (length kept) len) as [|Hk]; [reflexivity|].
    exfalso. rewrite <- Hused, E, length_app in Hk.
    destruct lost; [contradiction|cbn in Hk; lia].
Qed.

Lemma cut_CQLDecodeLength : cut_is_corruption CQLDecodeLength.
Proof. apply cut_CQLDecodeNum. apply Load32_app. Qed.

Lemma cut_CQLDecodeBytes (len : Z) : cut_is_corruption (CQLDecodeBytes len).
Proof.
  intros data bytes rest H. unfold CQLDecodeBytes in H.
  destruct (Z.ltb_spec (Z.of_nat (length data)) len) as [|Hlen]; [discriminate H|].
  injection H as <- <-.
  assert (length (take (Z.to_nat len) data) = Z.to_nat len) as Hused
    by (rewrite length_take; lia).
  exists (take (Z.to_nat len) data). split; [now rewrite take_drop|]. split.
  - intros tail. unfold CQLDecodeBytes.
    destruct (Z.ltb_spec (Z.of_nat (length (take (Z.to_nat len) data ++ tail))) len)
      as [Hlt|_].
    + rewrite length_app, Hused in Hlt. lia.
    + now rewrite take_app_length', drop_app_length' by (symmetry; assumption).
  - intros kept lost E Hlost. apply CQLDecodeBytes_short.
    assert (length kept < Z.to_nat len)%nat as Hk.
    { rewrite <- Hused, E, length_app. destruct lost; [contradiction|cbn; lia]. }
    lia.
Qed.

Lemma cut_decode_nullable (this : YQLValuePB) (payload : Z -> Decode YQLValuePB) :
  (forall len, cut_is_corruption (payload len)) ->
  cut_is_corruption (decode_nullable this payload).
Proof.
  intros Hp. unfold decode_nullable. apply cut_bind; [apply cut_CQLDecodeLength|].
  intros len. destruct (len <? 0)%Z; [apply cut_ret|apply Hp].
Qed.

Lemma cut_decode_elem (dec : Decode YQLValuePB) : cut_is_corruption (decode_elem dec).
Proof.
  unfold decode_elem. apply cut_bind; [apply cut_CQLDecodeLength|].
  intros len. destruct (len <? 0)%Z; [apply cut_ret|].
  apply cut_bind; [apply cut_CQLDecodeBytes|]. intros bytes. apply cut_lift.
Qed.

Lemma cut_decode_elems (dec : Decode YQLValuePB) (n : nat) :
  cut_is_corruption (decode_elems dec n).
Proof.
  induction n as [|n IH]; cbn [decode_elems]; [apply cut_ret|].
  apply cut_bind; [apply cut_decode_elem|]. intros e.
  apply cut_bind; [exact IH|]. intros es. apply cut_ret.
Qed.

Lemma cut_decode_pairs (deck decv : Decode YQLValuePB) (n : nat) :
  cut_is_corruption (decode_pairs deck decv n).
Proof.
  induction n as [|n IH]; cbn [decode_pairs]; [apply cut_ret|].
  apply cut_bind; [apply cut_decode_elem|]. intros k.
  apply cut_bind; [apply cut_decode_elem|]. intros x.
  apply cut_bind; [exact IH|]. intros kvs. apply cut_ret.
Qed.

Lemma cut_corrupt_unless {A} (st : Status) (rest : Decode A) :
  cut_is_corruption rest -> cut_is_corruption (corrupt_unless st rest).
Proof.
  intros Hr. unfold corrupt_unless. destruct (Status_ok st); [exact Hr|apply cut_fail].
Qed.

Lemma cut_bytes_payload (setter : list byte -> YQLValuePB -> YQLValuePB)
    (this : YQLValuePB) (len : Z) :
  cut_is_corruption (bytes <~ CQLDecodeBytes len ;; decode_ret (setter bytes this)).
Proof.
  apply cut_bind; [apply cut_CQLDecodeBytes|]. intros bytes. apply cut_ret.
Qed.

Lemma cut_Deserialize (yql_type : YQLType) (client : YQLClient) (this : YQLValuePB) :
  cut_is_corruption (Deserialize yql_type client this).
Proof.
  destruct yql_type; cbn [Deserialize];
    try (apply cut_decode_nullable; intros len; apply cut_bytes_payload).
  - apply cut_bind; [apply cut_CQLDecodeNum, Load8_app|intros; apply cut_ret].
  - apply cut_bind; [apply cut_CQLDecodeNum, Load16_app|intros; apply cut_ret].
  - apply cut_bind; [apply cut_CQLDecodeNum, Load32_app|intros; apply cut_ret].
  - apply cut_bind; [apply cut_CQLDecodeNum, Load64_app|intros; apply cut_ret].
  - apply cut_bind; [apply cut_CQLDecodeFloat, Load32_app|intros; apply cut_ret].
  - apply cut_bind; [apply cut_CQLDecodeFloat, Load64_app|intros; apply cut_ret].
  - apply cut_bind; [apply cut_CQLDecodeNum, Load8_app|intros; apply cut_ret].
  - apply cut_bind; [apply cut_CQLDecodeNum, Load64_app|intros; apply cut_ret].
  - apply cut_decode_nullable. intros len.
    apply cut_bind; [apply cut_CQLDecodeBytes|]. intros bytes.
    destruct (Inet_FromBytes bytes) as [st addr].
    apply cut_corrupt_unless, cut_lift.
  - apply cut_bind; [apply cut_CQLDecodeBytes|]. intros bytes.
    destruct (Uuid_FromBytes bytes) as [st uuid].
    apply cut_corrupt_unless, cut_lift.
  - apply cut_bind; [apply cut_CQLDecodeBytes|]. intros bytes.
    destruct (Uuid_FromBytes bytes) as [st uuid].
    apply cut_corrupt_unless, cut_corrupt_unless, cut_lift.
  - apply cut_decode_nullable. intros count.
    apply cut_bind; [apply cut_decode_pairs|]. intros kvs. apply cut_ret.
  - apply cut_decode_nullable. intros count.
    apply cut_bind; [apply cut_decode_elems|]. intros es. apply cut_ret.
  - apply cut_decode_nullable. intros count.
    apply cut_bind; [apply cut_decode_elems|]. intros es. apply cut_ret.
Qed.
(** C5: [Deserialize] answers truncated input with Corruption. The numeric
    helper [CQLDeserializeNum], given a byte length and a converter, fails
    with Corruption when fewer bytes remain and otherwise sets the
    converted value and moves the cursor by exactly that length; a
    fixed-width type fails with Corruption on fewer bytes than its width; a
    length-prefixed type fails with Corruption when the prefix itself is
    cut, when the length it declares exceeds the bytes that remain, or when
    the length declared by the first element of a collection does; an
    input that decodes to a value no longer does once it is cut anywhere
    inside the bytes that value used, at any depth of nesting: the result
    is Corruption; and on every input the call ends in a typed result,
    never in an abort. *)
Theorem truncated_input_is_corruption (yql_type : YQLType) (client : YQLClient)
    (this : YQLValuePB) (data : Slice) :
  (forall len converter num_type setter,
     ((length data < len)%nat ->
      CQLDeserializeNum len converter num_type setter this data = Fails Corruption) /\
     ((len <= length data)%nat ->
      CQLDeserializeNum len converter num_type setter this data
      = Returns (setter (num_type (converter data)) this, drop len data) /\
      length (drop len data) = (length data - len)%nat)) /\
  (forall w, fixed_width yql_type = Some w -> (length data < w)%nat ->
     Deserialize yql_type client this data = Fails Corruption) /\
  (fixed_width yql_type = None -> (length data < 4)%nat ->
     Deserialize yql_type client this data = Fails Corruption) /\
  (forall n rest, length_prefixed_bytes yql_type = true ->
     CQLDecodeLength data = Returns (n, rest) -> (0 <= n)%Z ->
     (Z.of_nat (length rest) < n)%Z ->
     Deserialize yql_type client this data = Fails Corruption) /\
  (forall c n elems rest, is_collection yql_type = true ->
     CQLDecodeLength data = Returns (c, elems) -> (0 < c)%Z ->
     CQLDecodeLength elems = Returns (n, rest) -> (0 <= n)%Z ->
     (Z.of_nat (length rest) < n)%Z ->
     Deserialize yql_type client this data = Fails Corruption) /\
  cut_is_corruption (Deserialize yql_type client this) /\
  returns_or_corruption (Deserialize yql_type client this data).
Proof.
  split; [|split; [|split; [|split; [|split; [|split]]]]].
  - intros len converter num_type setter. split.
    + apply CQLDeserializeNum_short.
    + intros H. split; [now apply CQLDeserializeNum_enough|]. apply length_drop.
  - intros w. apply Deserialize_fixed_short.
  - apply Deserialize_prefix_short.
  - intros n rest. apply Deserialize_bytes_short.
  - intros c n elems rest. apply Deserialize_element_short.
  - apply cut_Deserialize.
  - apply typed_Deserialize.
Qed.

Lemma truncated_input_is_corruption_witness :
  CQLDeserializeNum 4 Load32 (static_cast_signed 32) set_int32_value VALUE_NOT_SET
    [x00; x00; x2a] = Fails Corruption /\
  CQLDeserializeNum 4 Load32 (static_cast_signed 32) set_int32_value VALUE_NOT_SET
    [x00; x00; x00; x2a; x07] = Returns (PB_int32_value 42, [x07]) /\
  Deserialize INT64 0 VALUE_NOT_SET [x00; x00; x2a] = Fails Corruption /\
  Deserialize STRING 0 VALUE_NOT_SET [x00; x00; x2a] = Fails Corruption /\
  Deserialize STRING 0 VALUE_NOT_SET [x00; x00; x00; x03; x61; x62] = Fails Corruption /\
  Deserialize (LIST INT8) 0 VALUE_NOT_SET
    [x00; x00; x00; x01; x00; x00; x00; x01] = Fails Corruption.
Proof.
  split; [|split; [|split; [|split; [|split]]]].
  - destruct (truncated_input_is_corruption INT32 0 VALUE_NOT_SET [x00; x00; x2a])
      as (Hnum & _).
    apply Hnum. cbn. lia.
  - destruct (truncated_input_is_corruption INT32 0 VALUE_NOT_SET
                [x00; x00; x00; x2a; x07]) as (Hnum & _).
    apply (Hnum 4%nat Load32 (static_cast_signed 32) set_int32_value). cbn. lia.
  - destruct (truncated_input_is_corruption INT64 0 VALUE_NOT_SET [x00; x00; x2a])
      as (_ & Hfixed & _).
    apply (Hfixed 8%nat); [reflexivity | cbn; lia].
  - destruct (truncated_input_is_corruption STRING 0 VALUE_NOT_SET [x00; x00; x2a])
      as (_ & _ & Hprefix & _).
    apply Hprefix; [reflexivity | cbn; lia].
  - destruct (truncated_input_is_corruption STRING 0 VALUE_NOT_SET
                [x00; x00; x00; x03; x61; x62]) as (_ & _ & _ & Hbytes & _).
    apply (Hbytes 3%Z [x61; x62]); [reflexivity | reflexivity | lia | cbn; lia].
  - destruct (truncated_input_is_corruption (LIST INT8) 0 VALUE_NOT_SET
                [x00; x00; x00; x01; x00; x00; x00; x01]) as (_ & _ & _ & _ & Helem & _).
    apply (Helem 1%Z 1%Z [x00; x00; x00; x01] []);
      [reflexivity | reflexivity | lia | reflexivity | lia | cbn; lia].
Defined.

(** * Further properties of the value facade *)

(** ** Comparability *)

Lemma InternalType_eqb_eq (a b : InternalType) : InternalType_eqb a b = true <-> a = b.
Proof.
  split.
  - destruct a, b; simpl; intros H; try reflexivity; discriminate.
  - intros <-. destruct a; reflexivity.
Qed.

Lemma InternalType_eqb_sym (a b : InternalType) :
  InternalType_eqb a b = InternalType_eqb b a.
Proof. destruct a, b; reflexivity. Qed.

(** X1: Comparable holds exactly when the tags are equal or one side is
    null; it is reflexive and symmetric, every record is comparable with a
    null one, and it is not transitive: a null record is comparable with
    both an int32 and a string, which are not comparable with each
    other. *)
Theorem Comparable_characterised :
  (forall a b, Comparable a b = true <->
               type a = type b \/ IsNull a = true \/ IsNull b = true) /\
  (forall a, Comparable a a = true) /\
  (forall a b, Comparable a b = Comparable b a) /\
  (forall a b, IsNull a = true -> Comparable a b = true /\ Comparable b a = true) /\
  (forall a b, Comparable a b = false ->
               IsNull a = false /\ IsNull b = false /\ type a <> type b) /\
  ~ (forall a b c, Comparable a b = true -> Comparable b c = true ->
                   Comparable a c = true).
Proof.
  assert (Hchar : forall a b, Comparable a b = true <->
                    type a = type b \/ IsNull a = true \/ IsNull b = true).
  { intros a b. unfold Comparable, EitherIsNull.
    rewrite orb_true_iff, orb_true_iff, InternalType_eqb_eq. reflexivity. }
  split; [exact Hchar|]. split; [|split; [|split; [|split]]].
  - intros a. apply Hchar. left. reflexivity.
  - intros a b. unfold Comparable, EitherIsNull.
    now rewrite InternalType_eqb_sym, (orb_comm (IsNull a)).
  - intros a b Ha. split; apply Hchar; auto.
  - intros a b H. unfold Comparable, EitherIsNull in H.
    apply orb_false_elim in H as [Ht Hn]. apply orb_false_elim in Hn as [Ha Hb].
    split; [assumption|]. split; [assumption|].
    intros E. apply InternalType_eqb_eq in E. congruence.
  - intros Htrans.
    specialize (Htrans (PB_int32_value 1) VALUE_NOT_SET (PB_string_value [])
                  eq_refl eq_refl).
    discriminate Htrans.
Qed.

(** ** The relational operators on non-null operands *)

(** X2: on two non-null operands for which CompareTo returns, the six
    operators return and agree with one another: exactly one of [<], [==],
    [>] holds, [<=] is [<] or [==], [>=] is [>] or [==], and [!=] is the
    negation of [==]. *)
Theorem operators_agree_on_non_null {V : Type} (is_null : V -> bool)
    (CompareTo : V -> V -> Outcome Z) (a b : V) (c : Z) :
  BothNotNull is_null a b = true -> CompareTo a b = Returns c ->
  exists l e g,
    op_lt is_null CompareTo a b = Returns l /\
    op_eq is_null CompareTo a b = Returns e /\
    op_gt is_null CompareTo a b = Returns g /\
    exactly_one l e g /\
    op_le is_null CompareTo a b = Returns (l || e) /\
    op_ge is_null CompareTo a b = Returns (g || e) /\
    op_ne is_null CompareTo a b = Returns (negb e).
Proof.
  intros Hnn Hc.
  exists (c <? 0)%Z, (c =? 0)%Z, (c >? 0)%Z.
  unfold op_lt, op_eq, op_gt, op_le, op_ge, op_ne. rewrite Hnn, Hc.
  cbn [outcome_bind].
  destruct (Z.ltb_spec c 0) as [Hl|Hl], (Z.eqb_spec c 0) as [He|He];
    try lia.
  - replace (c >? 0)%Z with false by (symmetry; rewrite Z.gtb_ltb; apply Z.ltb_ge; lia).
    replace (c <=? 0)%Z with true by (symmetry; apply Z.leb_le; lia).
    replace (c >=? 0)%Z with false by (symmetry; rewrite Z.geb_leb; apply Z.leb_gt; lia).
    repeat split. left. repeat split.
  - replace (c >? 0)%Z with false by (symmetry; rewrite Z.gtb_ltb; apply Z.ltb_ge; lia).
    replace (c <=? 0)%Z with true by (symmetry; apply Z.leb_le; lia).
    replace (c >=? 0)%Z with true by (symmetry; rewrite Z.geb_leb; apply Z.leb_le; lia).
    repeat split. right. left. repeat split.
  - replace (c >? 0)%Z with true by (symmetry; rewrite Z.gtb_ltb; apply Z.ltb_lt; lia).
    replace (c <=? 0)%Z with false by (symmetry; apply Z.leb_gt; lia).
    replace (c >=? 0)%Z with true by (symmetry; rewrite Z.geb_leb; apply Z.leb_le; lia).
    repeat split. right. right. repeat split.
Qed.

Lemma operators_agree_on_non_null_witness :
  exists l e g,
    op_lt IsNull (fun _ _ => Returns (-1)%Z) (PB_int32_value 1) (PB_int32_value 2) = Returns l /\
    op_eq IsNull (fun _ _ => Returns (-1)%Z) (PB_int32_value 1) (PB_int32_value 2) = Returns e /\
    op_gt IsNull (fun _ _ => Returns (-1)%Z) (PB_int32_value 1) (PB_int32_value 2) = Returns g /\
    exactly_one l e g.
Proof.
  destruct (operators_agree_on_non_null IsNull (fun _ _ => Returns (-1)%Z)
              (PB_int32_value 1) (PB_int32_value 2) (-1)%Z)
    as (l & e & g & Hl & He & Hg & Hone & _).
  - reflexivity.
  - reflexivity.
  - exists l, e, g. repeat split; assumption.
Defined.

Lemma guarded_compare_aborts {V : Type} (is_null : V -> bool)
    (CompareTo : V -> V -> Outcome Z) (test : Z -> bool) (a b : V) :
  (if BothNotNull is_null a b then (c <- CompareTo a b ;; Returns (test c))
   else Returns false) = Aborts
  <-> BothNotNull is_null a b = true /\ CompareTo a b = Aborts.
Proof.
  destruct (BothNotNull is_null a b).
  - destruct (CompareTo a b) as [c|s|]; cbn [outcome_bind]; split.
    + intros H. discriminate H.
    + intros [_ H]. discriminate H.
    + intros H. discriminate H.
    + intros [_ H]. discriminate H.
    + intros _. split; reflexivity.
    + intros _. reflexivity.
  - split; [intros H; discriminate H | intros [H _]; discriminate H].
Qed.

(** X3: an operator aborts exactly when both operands are non-null and
    CompareTo aborts on them; with a null operand CompareTo is never
    reached, so no operator can abort. *)
Theorem operators_abort_with_CompareTo {V : Type} (is_null : V -> bool)
    (CompareTo : V -> V -> Outcome Z) (a b : V) :
  forall op,
    In op [op_lt is_null CompareTo; op_gt is_null CompareTo; op_le is_null CompareTo;
           op_ge is_null CompareTo; op_eq is_null CompareTo; op_ne is_null CompareTo] ->
    (op a b = Aborts <-> BothNotNull is_null a b = true /\ CompareTo a b = Aborts).
Proof.
  intros op Hin. simpl in Hin.
  destruct Hin as [<-|[<-|[<-|[<-|[<-|[<-|[]]]]]]];
    unfold op_lt, op_gt, op_le, op_ge, op_eq, op_ne;
    apply guarded_compare_aborts.
Qed.

Lemma operators_abort_with_CompareTo_witness :
  op_lt IsNull (fun _ _ => Aborts) (PB_int32_value 1) (PB_string_value []) = Aborts.
Proof.
  apply (operators_abort_with_CompareTo IsNull (fun _ _ => Aborts)
           (PB_int32_value 1) (PB_string_value [])
           (op_lt IsNull (fun _ _ => Aborts))).
  - left. reflexivity.
  - split; reflexivity.
Defined.

(** ** Setters and getters *)

(** X4: a typed setter replaces whatever the record held: afterwards the
    record has the setter's tag, is not null, and the getter of the same
    type returns the value that was set (for the integer types, a value of
    that width). *)
Theorem setter_then_getter (v : YQLValuePB) :
  (forall x, fits_signed 8 x = true ->
     int8_value (set_int8_value x v) = Returns x /\
     type (set_int8_value x v) = kInt8Value /\ IsNull (set_int8_value x v) = false) /\
  (forall x, fits_signed 16 x = true ->
     int16_value (set_int16_value x v) = Returns x /\
     type (set_int16_value x v) = kInt16Value /\ IsNull (set_int16_value x v) = false) /\
  (forall x, fits_signed 32 x = true ->
     int32_value (set_int32_value x v) = Returns x /\
     type (set_int32_value x v) = kInt32Value /\ IsNull (set_int32_value x v) = false) /\
  (forall x, fits_signed 64 x = true ->
     int64_value (set_int64_value x v) = Returns x /\
     type (set_int64_value x v) = kInt64Value /\ IsNull (set_int64_value x v) = false) /\
  (forall x, float_value (set_float_value x v) = Returns x /\
             IsNull (set_float_value x v) = false) /\
  (forall x, double_value (set_double_value x v) = Returns x /\
             IsNull (set_double_value x v) = false) /\
  (forall s, decimal_value (set_decimal_value s v) = Returns s /\
             IsNull (set_decimal_value s v) = false) /\
  (forall b, bool_value (set_bool_value b v) = Returns b /\
             IsNull (set_bool_value b v) = false) /\
  (forall s, string_value (set_string_value s v) = Returns s /\
             binary_value (set_string_value s v) = Aborts /\
             IsNull (set_string_value s v) = false) /\
  (forall t, timestamp_value (set_timestamp_value t v) = Returns t /\
             int64_value (set_timestamp_value t v) = Aborts /\
             IsNull (set_timestamp_value t v) = false) /\
  (forall s, binary_value (set_binary_value s v) = Returns s /\
             string_value (set_binary_value s v) = Aborts /\
             IsNull (set_binary_value s v) = false).
Proof.
  repeat match goal with |- _ /\ _ => split end;
    try (intros x Hx; unfold int8_value, int16_value, int32_value, int64_value,
           YQL_GET_VALUE, CHECK;
         cbn [set_int8_value set_int16_value set_int32_value set_int64_value
              has_field value_case InternalType_eqb Field.int8_value Field.int16_value
              Field.int32_value Field.int64_value type IsNull];
         rewrite static_cast_signed_fits by (lia || assumption);
         repeat split);
    intros; repeat split.
Qed.

Lemma setter_then_getter_witness :
  int8_value (set_int8_value (-128) (PB_string_value [x61])) = Returns (-128)%Z /\
  int64_value (set_int64_value 7 VALUE_NOT_SET) = Returns 7%Z.
Proof.
  destruct (setter_then_getter (PB_string_value [x61])) as (H8 & _).
  destruct (setter_then_getter VALUE_NOT_SET) as (_ & _ & _ & H64 & _).
  split.
  - apply (H8 (-128)%Z). reflexivity.
  - apply (H64 7%Z). reflexivity.
Defined.

Lemma returned_CHECK {A} (cond : bool) (rest : Outcome A) :
  returned (CHECK cond rest) = true -> cond = true.
Proof. destruct cond; [reflexivity|discriminate]. Qed.

(** X5: a typed getter returns only on a record that carries its own tag.
    Hence on any record at most one of the seventeen getters returns, on a
    null record none does, and a record read as text is never readable as
    binary. *)
Theorem getters_are_exclusive (v : YQLValuePB) :
  (forall tag getter, In (tag, getter) typed_getters ->
     getter v = true -> type v = tag) /\
  (forall tag1 getter1 tag2 getter2,
     In (tag1, getter1) typed_getters -> In (tag2, getter2) typed_getters ->
     getter1 v = true -> getter2 v = true -> tag1 = tag2) /\
  (IsNull v = true ->
   forall tag getter, In (tag, getter) typed_getters -> getter v = false).
Proof.
  assert (Hown : forall tag getter, In (tag, getter) typed_getters ->
                   getter v = true -> type v = tag).
  { intros tag getter Hin Hret. unfold typed_getters in Hin. cbn [In] in Hin.
    repeat (destruct Hin as [E|Hin];
            [injection E as <- <-;
             apply returned_CHECK in Hret;
             now apply has_field_value_case in Hret|]).
    destruct Hin. }
  split; [exact Hown|]. split.
  - intros tag1 getter1 tag2 getter2 H1 H2 R1 R2.
    rewrite <- (Hown _ _ H1 R1). apply (Hown _ _ H2 R2).
  - intros Hnull tag getter Hin.
    destruct (getter v) eqn:E; [|reflexivity].
    pose proof (Hown _ _ Hin E) as Ht.
    apply (has_field_value_case kValueNotSet) in Hnull. unfold type in Ht.
    rewrite Hnull in Ht. subst tag.
    unfold typed_getters in Hin. cbn [In] in Hin.
    repeat (destruct Hin as [E'|Hin]; [discriminate E'|]). destruct Hin.
Qed.

Lemma getters_are_exclusive_witness :
  returned (binary_value (PB_string_value [x61])) = false.
Proof.
  destruct (getters_are_exclusive (PB_string_value [x61])) as (_ & Hexcl & _).
  destruct (returned (binary_value (PB_string_value [x61]))) eqn:E; [|reflexivity].
  exfalso.
  assert (kStringValue = kBinaryValue) as Habs.
  { apply (Hexcl kStringValue (fun v => returned (string_value v))
                 kBinaryValue (fun v => returned (binary_value v))).
    - unfold typed_getters. cbn [In]. do 8 right. left. reflexivity.
    - unfold typed_getters. cbn [In]. do 10 right. left. reflexivity.
    - reflexivity.
    - exact E. }
  discriminate Habs.
Defined.

Lemma Inet_FromBytes_ToBytes (a : InetAddress) :
  InetAddress_fits a -> Inet_FromBytes (Inet_ToBytes a).2 = (OK, a).
Proof.
  destruct a as [x|x]; cbn [InetAddress_fits Inet_ToBytes snd]; intros Hx;
    unfold Inet_FromBytes; rewrite length_be_encode; cbn [Nat.eqb];
    rewrite be_decode_encode.
  - change (2 ^ (8 * Z.of_nat 4))%Z with (2 ^ 32)%Z. now rewrite Z.mod_small by lia.
  - change (2 ^ (8 * Z.of_nat 16))%Z with (2 ^ 128)%Z. now rewrite Z.mod_small by lia.
Qed.

(** X6: the setters of uuid and inet address store the encoded bytes and
    the getters decode them again: for a 128-bit UUID and for an address
    that fits its family, setting and then getting gives the same value
    back, with no CHECK tripping on the way, whatever the record held
    before. *)
Theorem encoded_setter_then_getter (v : YQLValuePB) :
  (forall u, (0 <= u < 2 ^ 128)%Z ->
     (r <- set_uuid_value u v ;; uuid_value r) = Returns u) /\
  (forall a, InetAddress_fits a ->
     (r <- set_inetaddress_value a v ;; inetaddress_value r) = Returns a).
Proof.
  split.
  - intros u Hu. unfold set_uuid_value, uuid_value, CHECK_OK, CHECK.
    pose proof (Uuid_FromBytes_ToBytes u Hu) as E.
    unfold Uuid_ToBytes in *. cbn [snd Status_ok outcome_bind] in *.
    cbn [has_field value_case InternalType_eqb Field.uuid_value]. now rewrite E.
  - intros a Ha. unfold set_inetaddress_value, inetaddress_value, CHECK_OK, CHECK.
    pose proof (Inet_FromBytes_ToBytes a Ha) as E.
    destruct (Inet_ToBytes a) as [st bytes] eqn:Eto.
    assert (st = OK) as -> by (destruct a; cbn in Eto; congruence).
    cbn [snd Status_ok outcome_bind] in *.
    cbn [has_field value_case InternalType_eqb Field.inetaddress_value]. now rewrite E.
Qed.

Lemma encoded_setter_then_getter_witness :
  (r <- set_uuid_value sample_uuid_v4 VALUE_NOT_SET ;; uuid_value r)
    = Returns sample_uuid_v4 /\
  (r <- set_inetaddress_value (InetV4 2130706433) (PB_int8_value 1) ;; inetaddress_value r)
    = Returns (InetV4 2130706433).
Proof.
  split.
  - apply (encoded_setter_then_getter VALUE_NOT_SET). vm_compute.
    split; [discriminate|reflexivity].
  - apply (encoded_setter_then_getter (PB_int8_value 1) ).
    cbn [InetAddress_fits]. lia.
Defined.

(** ** Collections *)

(** X7: [set_map_value], [set_set_value] and [set_list_value] leave a
    record that already is a collection of that kind as it is, elements
    included, and turn any other record, null or not, into the empty
    collection; so calling one twice is the same as calling it once, and
    switching a populated collection to another kind drops its
    elements. *)
Theorem set_collection_value_keeps_same_kind (v : YQLValuePB) :
  (has_field kMapValue v = true -> set_map_value v = v) /\
  (has_field kMapValue v = false -> set_map_value v = PB_map_value [] []) /\
  (has_field kSetValue v = true -> set_set_value v = v) /\
  (has_field kSetValue v = false -> set_set_value v = PB_set_value []) /\
  (has_field kListValue v = true -> set_list_value v = v) /\
  (has_field kListValue v = false -> set_list_value v = PB_list_value []) /\
  set_map_value (set_map_value v) = set_map_value v /\
  set_set_value (set_set_value v) = set_set_value v /\
  set_list_value (set_list_value v) = set_list_value v /\
  set_list_value (set_map_value v) = PB_list_value [] /\
  set_map_value (set_set_value v) = PB_map_value [] [] /\
  set_set_value (set_list_value v) = PB_set_value [].
Proof.
  unfold set_map_value, set_set_value, set_list_value,
    mutable_map_value, mutable_set_value, mutable_list_value.
  repeat split; try (intros H; now rewrite H); destruct v; reflexivity.
Qed.

Lemma set_collection_value_keeps_same_kind_witness :
  set_list_value (PB_list_value [PB_int32_value 1]) = PB_list_value [PB_int32_value 1] /\
  set_list_value (PB_set_value [PB_int32_value 1]) = PB_list_value [].
Proof.
  split.
  - destruct (set_collection_value_keeps_same_kind (PB_list_value [PB_int32_value 1]))
      as (_ & _ & _ & _ & Hkeep & _).
    apply Hkeep. reflexivity.
  - destruct (set_collection_value_keeps_same_kind (PB_set_value [PB_int32_value 1]))
      as (_ & _ & _ & _ & _ & Hfresh & _).
    apply Hfresh. reflexivity.
Defined.

Lemma put_list_elem_list (x : YQLValuePB) (es : list YQLValuePB) :
  put_list_elem x (PB_list_value es) = PB_list_value (es ++ [x]).
Proof.
  unfold put_list_elem, add_list_elem.
  cbn [mutable_list_value has_field value_case InternalType_eqb add_list_elems store].
  now rewrite insert_last.
Qed.

Lemma put_set_elem_set (x : YQLValuePB) (es : list YQLValuePB) :
  put_set_elem x (PB_set_value es) = PB_set_value (es ++ [x]).
Proof.
  unfold put_set_elem, add_set_elem.
  cbn [mutable_set_value has_field value_case InternalType_eqb add_set_elems store].
  now rewrite insert_last.
Qed.

Lemma put_list_elems_list (xs es : list YQLValuePB) :
  put_list_elems xs (PB_list_value es) = PB_list_value (es ++ xs).
Proof.
  revert es. induction xs as [|x xs IH]; intros es.
  - cbn. now rewrite app_nil_r.
  - unfold put_list_elems in *. cbn [fold_left].
    rewrite put_list_elem_list, IH. now rewrite <- app_assoc.
Qed.

Lemma put_set_elems_set (xs es : list YQLValuePB) :
  put_set_elems xs (PB_set_value es) = PB_set_value (es ++ xs).
Proof.
  revert es. induction xs as [|x xs IH]; intros es.
  - cbn. now rewrite app_nil_r.
  - unfold put_set_elems in *. cbn [fold_left].
    rewrite put_set_elem_set, IH. now rewrite <- app_assoc.
Qed.

(** X8: appending elements one at a time through [add_list_elem] (or
    [add_set_elem]) and writing each through the returned pointer puts
    them after the elements already there, in the order of the calls; a
    record of another kind starts from no elements. Nothing is sorted or
    dropped: a set keeps duplicates, and the getter returns the whole
    sequence. *)
Theorem appended_elements_keep_order (v : YQLValuePB) (xs : list YQLValuePB) :
  put_list_elems xs (set_list_value v)
    = PB_list_value (seq_elems (Field.list_value v) ++ xs) /\
  list_value (put_list_elems xs (set_list_value v))
    = Returns (mkSeq (seq_elems (Field.list_value v) ++ xs)) /\
  put_set_elems xs (set_set_value v)
    = PB_set_value (seq_elems (Field.set_value v) ++ xs) /\
  set_value (put_set_elems xs (set_set_value v))
    = Returns (mkSeq (seq_elems (Field.set_value v) ++ xs)) /\
  (has_field kListValue v = false ->
   put_list_elems xs (set_list_value v) = PB_list_value xs) /\
  (has_field kSetValue v = false ->
   put_set_elems xs (set_set_value v) = PB_set_value xs /\
   length (seq_elems (Field.set_value (put_set_elems xs (set_set_value v)))) = length xs).
Proof.
  assert (Hl : put_list_elems xs (set_list_value v)
               = PB_list_value (seq_elems (Field.list_value v) ++ xs)).
  { destruct v; cbn [set_list_value mutable_list_value has_field value_case
                     InternalType_eqb Field.list_value seq_elems];
      apply put_list_elems_list. }
  assert (Hs : put_set_elems xs (set_set_value v)
               = PB_set_value (seq_elems (Field.set_value v) ++ xs)).
  { destruct v; cbn [set_set_value mutable_set_value has_field value_case
                     InternalType_eqb Field.set_value seq_elems];
      apply put_set_elems_set. }
  split; [exact Hl|]. split; [now rewrite Hl|]. split; [exact Hs|].
  split; [now rewrite Hs|]. split.
  - intros H. rewrite Hl. destruct v; try discriminate H; reflexivity.
  - intros H. rewrite Hs. destruct v; try discriminate H; split; reflexivity.
Qed.

Lemma appended_elements_keep_order_witness :
  put_list_elems [PB_int32_value 1; PB_int32_value 2; PB_int32_value 3]
    (set_list_value VALUE_NOT_SET)
  = PB_list_value [PB_int32_value 1; PB_int32_value 2; PB_int32_value 3] /\
  put_set_elems [PB_int32_value 2; PB_int32_value 1; PB_int32_value 2]
    (set_set_value (PB_string_value []))
  = PB_set_value [PB_int32_value 2; PB_int32_value 1; PB_int32_value 2].
Proof.
  split.
  - destruct (appended_elements_keep_order VALUE_NOT_SET
                [PB_int32_value 1; PB_int32_value 2; PB_int32_value 3])
      as (_ & _ & _ & _ & Hlist & _).
    apply Hlist. reflexivity.
  - destruct (appended_elements_keep_order (PB_string_value [])
                [PB_int32_value 2; PB_int32_value 1; PB_int32_value 2])
      as (_ & _ & _ & _ & _ & Hset).
    apply Hset. reflexivity.
Defined.

(** ** Assignment composes *)

(** X9: move-assignment never loses a payload: the two records after the
    call are the two records before it, exchanged; moving back out of the
    destination restores both records, and so does moving in twice.
    Copy-assigning twice is the same as once, and after a copy a move
    between the two records changes nothing. *)
Theorem move_assignment_is_an_exchange (d s : YQLValuePB) :
  (let '(d1, s1) := AssignMove d s in AssignMove s1 d1) = (s, d) /\
  (let '(d1, s1) := AssignMove d s in AssignMove d1 s1) = (d, s) /\
  (let '(d1, s1) := Assign d s in Assign d1 s1) = Assign d s /\
  (let '(d1, s1) := Assign d s in AssignMove d1 s1) = Assign d s /\
  (forall d', (AssignMove d s).1 = (AssignMove d' s).1) /\
  (forall d', (Assign d s) = (Assign d' s)).
Proof. repeat split. Qed.

(** ** The float decode helper *)

(** X10: [CQLDeserializeFloat], given a byte length and a converter, fails
    with Corruption when fewer bytes remain, without moving anything; when
    enough bytes remain it hands the converted value to the setter and
    moves the cursor by exactly that length. *)
Theorem CQLDeserializeFloat_contract (len : nat) (converter : Slice -> Z)
    (setter : Z -> YQLValuePB -> YQLValuePB) (this : YQLValuePB) (data : Slice) :
  ((length data < len)%nat ->
   CQLDeserializeFloat len converter setter this data = Fails Corruption) /\
  ((len <= length data)%nat ->
   CQLDeserializeFloat len converter setter this data
   = Returns (setter (converter data) this, drop len data) /\
   length (drop len data) = (length data - len)%nat).
Proof.
  unfold CQLDeserializeFloat, decode_bind, CQLDecodeFloat. split; intros H.
  - destruct (Nat.ltb_spec (length data) len); [reflexivity|lia].
  - destruct (Nat.ltb_spec (length data) len); [lia|].
    split; [reflexivity|apply length_drop].
Qed.

Lemma CQLDeserializeFloat_contract_witness :
  CQLDeserializeFloat 4 Load32 set_float_value VALUE_NOT_SET [x3f; x80; x00]
    = Fails Corruption /\
  CQLDeserializeFloat 4 Load32 set_float_value (PB_int8_value 1)
    [x3f; x80; x00; x00; x07] = Returns (PB_float_value 1065353216, [x07]).
Proof.
  split.
  - destruct (CQLDeserializeFloat_contract 4 Load32 set_float_value VALUE_NOT_SET
                [x3f; x80; x00]) as [Hshort _].
    apply Hshort. cbn. lia.
  - destruct (CQLDeserializeFloat_contract 4 Load32 set_float_value (PB_int8_value 1)
                [x3f; x80; x00; x00; x07]) as [_ Henough].
    apply Henough. cbn. lia.
Defined.

(** ** SetColumnValue composes *)

Section VirtualTableComposition.
Context {DataType QLValue T : Type} (GetValue : T -> DataType -> QLValue).

Lemma find_column_from_found (cols : list (@ColumnSchema DataType)) (name : string)
    (i : Z) :
  find_column_from cols name i <> kColumnNotFound ->
  exists (j : nat) (c : ColumnSchema),
    find_column_from cols name i = (i + Z.of_nat j)%Z /\
    cols !! j = Some c /\ column_name c = name.
Proof.
  revert i. induction cols as [|c0 cols IH]; intros i Hfound.
  - contradiction.
  - cbn [find_column_from] in *.
    destruct (String.eqb_spec (column_name c0) name) as [E|_].
    + exists 0%nat, c0. split; [lia|]. split; [reflexivity|assumption].
    + destruct (IH (i + 1)%Z Hfound) as (j & c & Hj & Hc & Hn).
      exists (S j), c. split; [lia|]. split; assumption.
Qed.

Lemma find_column_from_not_found (cols : list (@ColumnSchema DataType)) (name : string)
    (i : Z) :
  (0 <= i)%Z -> find_column_from cols name i = kColumnNotFound ->
  forall c, c ∈ cols -> column_name c <> name.
Proof.
  revert i. induction cols as [|c0 cols IH]; intros i Hi Hnone c Hc.
  - inversion Hc.
  - cbn [find_column_from] in Hnone.
    destruct (String.eqb_spec (column_name c0) name) as [E|Hne].
    + unfold kColumnNotFound in Hnone. lia.
    + apply elem_of_cons in Hc as [->|Hc]; [assumption|].
      apply (IH (i + 1)%Z); [lia|assumption|assumption].
Qed.

Lemma SetColumnValue_not_found (schema_ : @Schema DataType) (col_name : string)
    (value : T) (row : QLRow) :
  find_column schema_ col_name = kColumnNotFound ->
  SetColumnValue GetValue schema_ col_name value row = Returns (NotFound, row).
Proof. intros H. unfold SetColumnValue. now rewrite H. Qed.

Lemma SetColumnValue_found (schema_ : @Schema DataType) (col_name : string)
    (value : T) (row : QLRow) :
  find_column schema_ col_name <> kColumnNotFound ->
  exists (i : nat) (c : ColumnSchema),
    find_column schema_ col_name = Z.of_nat i /\
    columns schema_ !! i = Some c /\ column_name c = col_name /\
    SetColumnValue GetValue schema_ col_name value row
    = if (i <? length (cells row))%nat
      then Returns (OK, mkRow (<[i := GetValue value (column_type c)]> (cells row)))
      else Aborts.
Proof.
  intros Hfound. unfold find_column in *.
  destruct (find_column_from_found (columns schema_) col_name 0 Hfound)
    as (i & c & Hi & Hc & Hn).
  exists i, c. split; [lia|]. split; [assumption|]. split; [assumption|].
  unfold SetColumnValue, find_column. rewrite Hi.
  destruct (Z.eqb_spec (0 + Z.of_nat i) kColumnNotFound) as [E|_];
    [unfold kColumnNotFound in E; lia|].
  unfold column, assign_column.
  replace (Z.to_nat (0 + Z.of_nat i)) with i by lia.
  rewrite Hc. cbn [outcome_bind].
  destruct (i <? length (cells row))%nat; reflexivity.
Qed.

Lemma SetColumnValue_OK_inv (schema_ : @Schema DataType) (col_name : string)
    (value : T) (row row' : QLRow) :
  SetColumnValue GetValue schema_ col_name value row = Returns (OK, row') ->
  exists (i : nat) (c : ColumnSchema),
    find_column schema_ col_name = Z.of_nat i /\
    columns schema_ !! i = Some c /\ column_name c = col_name /\
    (i < length (cells row))%nat /\
    row' = mkRow (<[i := GetValue value (column_type c)]> (cells row)).
Proof.
  intros Hok.
  destruct (Z.eq_dec (find_column schema_ col_name) kColumnNotFound) as [E|Hfound].
  - rewrite (SetColumnValue_not_found _ _ value row E) in Hok. discriminate Hok.
  - destruct (SetColumnValue_found schema_ col_name value row Hfound)
      as (i & c & Hi & Hc & Hn & Heval).
    rewrite Heval in Hok. exists i, c.
    destruct (Nat.ltb_spec i (length (cells row))) as [Hlt|_]; [|discriminate Hok].
    injection Hok as <-. repeat split; assumption.
Qed.
End VirtualTableComposition.

(** X11: the last write to a column wins. Once a column has been set,
    setting it again gives the row that setting it directly would have
    given, and setting it to the same value again changes nothing. *)
Theorem SetColumnValue_last_write_wins {DataType QLValue T : Type}
    (GetValue : T -> DataType -> QLValue) (schema_ : Schema)
    (col_name : string) (value1 value2 : T) (row row1 : QLRow) :
  SetColumnValue GetValue schema_ col_name value1 row = Returns (OK, row1) ->
  SetColumnValue GetValue schema_ col_name value2 row1
    = SetColumnValue GetValue schema_ col_name value2 row /\
  SetColumnValue GetValue schema_ col_name value1 row1 = Returns (OK, row1).
Proof.
  intros H1.
  destruct (SetColumnValue_OK_inv GetValue _ _ _ _ _ H1)
    as (i & c & Hi & Hc & Hn & Hlt & ->).
  assert (Hfound : find_column schema_ col_name <> kColumnNotFound)
    by (rewrite Hi; unfold kColumnNotFound; lia).
  assert (Heval : forall value r,
            SetColumnValue GetValue schema_ col_name value r
            = if (i <? length (cells r))%nat
              then Returns (OK, mkRow (<[i := GetValue value (column_type c)]> (cells r)))
              else Aborts).
  { intros value r.
    destruct (SetColumnValue_found GetValue schema_ col_name value r Hfound)
      as (i' & c' & Hi' & Hc' & _ & Hev).
    assert (i' = i) as -> by lia. rewrite Hc in Hc'. injection Hc' as <-. exact Hev. }
  rewrite !Heval. cbn [cells]. rewrite length_insert.
  destruct (Nat.ltb_spec i (length (cells row))) as [_|]; [|lia].
  now rewrite !list_insert_insert_eq.
Qed.

Lemma SetColumnValue_last_write_wins_witness :
  SetColumnValue (fun (x : Z) (ty : bool) => (x, ty))
    (mkSchema [mkColumn "keyspace_name" true; mkColumn "table_name" false])
    "table_name" 9%Z (mkRow [(0%Z, true); (7%Z, false)])
  = SetColumnValue (fun (x : Z) (ty : bool) => (x, ty))
      (mkSchema [mkColumn "keyspace_name" true; mkColumn "table_name" false])
      "table_name" 9%Z (mkRow [(0%Z, true); (0%Z, false)]).
Proof.
  apply (SetColumnValue_last_write_wins (fun (x : Z) (ty : bool) => (x, ty))
           (mkSchema [mkColumn "keyspace_name" true; mkColumn "table_name" false])
           "table_name" 7%Z 9%Z (mkRow [(0%Z, true); (0%Z, false)])
           (mkRow [(0%Z, true); (7%Z, false)])).
  reflexivity.
Defined.

(** X12: writes to two different columns do not interfere: setting one
    column and then another gives the same row as setting them in the
    other order, and both orders succeed together. *)
Theorem SetColumnValue_commutes {DataType QLValue T : Type}
    (GetValue : T -> DataType -> QLValue) (schema_ : Schema)
    (name1 name2 : string) (value1 value2 : T) (row row1 row12 : QLRow) :
  name1 <> name2 ->
  SetColumnValue GetValue schema_ name1 value1 row = Returns (OK, row1) ->
  SetColumnValue GetValue schema_ name2 value2 row1 = Returns (OK, row12) ->
  exists row2,
    SetColumnValue GetValue schema_ name2 value2 row = Returns (OK, row2) /\
    SetColumnValue GetValue schema_ name1 value1 row2 = Returns (OK, row12).
Proof.
  intros Hne H1 H2.
  destruct (SetColumnValue_OK_inv GetValue _ _ _ _ _ H1)
    as (i1 & c1 & Hi1 & Hc1 & Hn1 & Hlt1 & ->).
  destruct (SetColumnValue_OK_inv GetValue _ _ _ _ _ H2)
    as (i2 & c2 & Hi2 & Hc2 & Hn2 & Hlt2 & ->).
  cbn [cells] in *. rewrite length_insert in Hlt2.
  assert (i1 <> i2) as Hidx.
  { intros ->. rewrite Hc1 in Hc2. injection Hc2 as <-. congruence. }
  assert (Hf1 : find_column schema_ name1 <> kColumnNotFound)
    by (rewrite Hi1; unfold kColumnNotFound; lia).
  assert (Hf2 : find_column schema_ name2 <> kColumnNotFound)
    by (rewrite Hi2; unfold kColumnNotFound; lia).
  exists (mkRow (<[i2 := GetValue value2 (column_type c2)]> (cells row))). split.
  - destruct (SetColumnValue_found GetValue schema_ name2 value2 row Hf2)
      as (i & c & Hi & Hc & _ & Hev).
    assert (i = i2) as -> by lia. rewrite Hc2 in Hc. injection Hc as <-.
    rewrite Hev. destruct (Nat.ltb_spec i2 (length (cells row))); [reflexivity|lia].
  - destruct (SetColumnValue_found GetValue schema_ name1 value1
                (mkRow (<[i2 := GetValue value2 (column_type c2)]> (cells row))) Hf1)
      as (i & c & Hi & Hc & _ & Hev).
    assert (i = i1) as -> by lia. rewrite Hc1 in Hc. injection Hc as <-.
    rewrite Hev. cbn [cells]. rewrite length_insert.
    destruct (Nat.ltb_spec i1 (length (cells row))); [|lia].
    now rewrite list_insert_insert_ne by congruence.
Qed.

Lemma SetColumnValue_commutes_witness :
  exists row2,
    SetColumnValue (fun (x : Z) (ty : bool) => (x, ty))
      (mkSchema [mkColumn "keyspace_name" true; mkColumn "table_name" false])
      "table_name" 9%Z (mkRow [(0%Z, true); (0%Z, false)]) = Returns (OK, row2) /\
    SetColumnValue (fun (x : Z) (ty : bool) => (x, ty))
      (mkSchema [mkColumn "keyspace_name" true; mkColumn "table_name" false])
      "keyspace_name" 7%Z row2 = Returns (OK, mkRow [(7%Z, true); (9%Z, false)]).
Proof.
  apply (SetColumnValue_commutes (fun (x : Z) (ty : bool) => (x, ty))
           (mkSchema [mkColumn "keyspace_name" true; mkColumn "table_name" false])
           "keyspace_name" "table_name" 7%Z 9%Z
           (mkRow [(0%Z, true); (0%Z, false)]) (mkRow [(7%Z, true); (0%Z, false)])
           (mkRow [(7%Z, true); (9%Z, false)])).
  - discriminate.
  - reflexivity.
  - reflexivity.
Defined.

(** X13: [SetColumnValue] ends in one of three ways and no other. It
    returns NotFound with the row untouched, exactly when no column of the
    schema has the name; or it returns OK with a row of the same length,
    when some column has the name; or, when the name is a column but the
    row has no cell at its index, it does not return at all. It never
    returns any other status and never changes the number of cells. *)
Theorem SetColumnValue_outcomes {DataType QLValue T : Type}
    (GetValue : T -> DataType -> QLValue) (schema_ : Schema)
    (col_name : string) (value : T) (row : QLRow) :
  match SetColumnValue GetValue schema_ col_name value row with
  | Returns (st, row') =>
      (st = NotFound /\ row' = row /\
       forall c, c ∈ columns schema_ -> column_name c <> col_name) \/
      (st = OK /\ length (cells row') = length (cells row) /\
       exists c, c ∈ columns schema_ /\ column_name c = col_name)
  | Fails _ => False
  | Aborts =>
      (exists c, c ∈ columns schema_ /\ column_name c = col_name) /\
      (length (cells row) <= Z.to_nat (find_column schema_ col_name))%nat
  end.
Proof.
  destruct (Z.eq_dec (find_column schema_ col_name) kColumnNotFound) as [E|Hfound].
  - rewrite (SetColumnValue_not_found GetValue _ _ value row E).
    left. split; [reflexivity|]. split; [reflexivity|].
    apply (find_column_from_not_found (columns schema_) col_name 0); [lia|exact E].
  - destruct (SetColumnValue_found GetValue schema_ col_name value row Hfound)
      as (i & c & Hi & Hc & Hn & Hev).
    rewrite Hev.
    assert (exists c, c ∈ columns schema_ /\ column_name c = col_name) as Hex.
    { exists c. split; [|assumption]. apply list_elem_of_lookup. now exists i. }
    destruct (Nat.ltb_spec i (length (cells row))) as [Hlt|Hge].
    + right. split; [reflexivity|]. split; [|exact Hex].
      cbn [cells]. apply length_insert.
    + split; [exact Hex|]. rewrite Hi. lia.
Qed.

(** ** Appends keep the elements already there *)

(** X14: an append never disturbs what is already in the collection: on a
    record that already is a map (set, list), every element that could be
    read through a pointer before [add_map_key] or [add_map_value]
    ([add_set_elem], [add_list_elem]) is read through the same pointer
    afterwards. *)
Theorem appends_keep_earlier_elements (v : YQLValuePB) (p : ElemPtr) (x : YQLValuePB) :
  deref p v = Some x ->
  (has_field kMapValue v = true ->
   deref p (add_map_key v).1 = Some x /\ deref p (add_map_value v).1 = Some x) /\
  (has_field kSetValue v = true -> deref p (add_set_elem v).1 = Some x) /\
  (has_field kListValue v = true -> deref p (add_list_elem v).1 = Some x).
Proof.
  intros Hp.
  destruct v; destruct p; try discriminate Hp; cbn [deref] in Hp;
    (split; [|split]);
    intros Hk; try discriminate Hk; try split;
    cbn [add_map_key add_map_value add_set_elem add_list_elem mutable_map_value
         mutable_set_value mutable_list_value has_field value_case InternalType_eqb
         add_keys add_values add_set_elems add_list_elems fst deref];
    try assumption;
    now apply lookup_app_l_Some.
Qed.

Lemma appends_keep_earlier_elements_witness :
  deref (ListElemAt 0) (add_list_elem (PB_list_value [PB_int32_value 7])).1
    = Some (PB_int32_value 7) /\
  deref (KeyAt 0) (add_map_value (PB_map_value [PB_int32_value 7] [])).1
    = Some (PB_int32_value 7).
Proof.
  destruct (appends_keep_earlier_elements (PB_list_value [PB_int32_value 7])
              (ListElemAt 0) (PB_int32_value 7) eq_refl)
    as (_ & _ & Hlist).
  destruct (appends_keep_earlier_elements (PB_map_value [PB_int32_value 7] [])
              (KeyAt 0) (PB_int32_value 7) eq_refl)
    as (Hmap & _).
  split; [apply Hlist | apply Hmap]; reflexivity.
Defined.

(** ** Consecutive fixed-width reads *)

(** X15: two numeric reads in a row consume consecutive fields: when the
    input holds both, the second read starts where the first stopped and
    the cursor ends past both lengths; when the input holds the first field
    but not the second, the first read succeeds and the second fails with
    Corruption. *)
Theorem consecutive_numeric_reads (len1 len2 : nat) (conv1 conv2 : Slice -> Z)
    (num1 num2 : Z -> Z) (set1 set2 : Z -> YQLValuePB -> YQLValuePB)
    (this1 this2 : YQLValuePB) (data : Slice) :
  (len1 <= length data)%nat ->
  exists r1,
    CQLDeserializeNum len1 conv1 num1 set1 this1 data = Returns (r1, drop len1 data) /\
    ((len1 + len2 <= length data)%nat ->
     CQLDeserializeNum len2 conv2 num2 set2 this2 (drop len1 data)
     = Returns (set2 (num2 (conv2 (drop len1 data))) this2, drop (len1 + len2) data)) /\
    ((length data < len1 + len2)%nat ->
     CQLDeserializeNum len2 conv2 num2 set2 this2 (drop len1 data) = Fails Corruption).
Proof.
  intros H1. exists (set1 (num1 (conv1 data)) this1).
  split; [now apply CQLDeserializeNum_enough|]. split; intros H2.
  - rewrite CQLDeserializeNum_enough by (rewrite length_drop; lia).
    now rewrite drop_drop.
  - apply CQLDeserializeNum_short. rewrite length_drop. lia.
Qed.

Lemma consecutive_numeric_reads_witness :
  CQLDeserializeNum 2 Load16 (static_cast_signed 16) set_int16_value VALUE_NOT_SET
    (drop 1 [x05; xff; xfe; x09])
  = Returns (PB_int16_value (-2), [x09]).
Proof.
  destruct (consecutive_numeric_reads 1 2 Load8 Load16 (static_cast_signed 8)
              (static_cast_signed 16) set_int8_value set_int16_value
              VALUE_NOT_SET VALUE_NOT_SET [x05; xff; xfe; x09])
    as (r1 & _ & Hboth & _).
  - cbn. lia.
  - apply Hboth. cbn. lia.
Defined.
